(** * A block-addressed disk image, its inode bitmap allocator and the
      in-core inode cache

    Shallow embedding of [block.c] (bread, bwrite) and [inode.c] (ialloc),
    with the helpers those files call but do not define.

    Conventions.
    - A C [int] is a [Z]; the one product that can leave the 32-bit range
      ([block_num * BLOCK_SIZE]) is wrapped with [wrap_int].
    - An [unsigned char] buffer is a [list Z] of byte values; a store inside
      the array is stdpp's [list_inserts] (it keeps the length and ignores
      positions past the end, where the C program would write outside the
      array).
    - The image file behind [image_fd] is a [world]: the bytes of the file,
      the file position, what the operating system will do at the next
      transfers, and the log of the system calls made so far. *)

From stdpp Require Import base numbers option list.
From Stdlib Require Import ZArith Lia.

Local Open Scope Z_scope.

(** ** Constants *)

(** block.h *)
Definition BLOCK_SIZE : Z := 4096.
Definition FREE_DATA_BLOCK_NUM : Z := 2.

(** Modelled from the spec: inode.h is not part of the sources; "Block 1 (a
    reserved constant) holds the inode free-bitmap". *)
Definition FREE_INODE_BLOCK_NUM : Z := 1.

(** Modelled from the spec: inode.h is not part of the sources; the record is
    64 bytes, the table starts at a well-known block (3 in the notes kept in
    inode.c), there are 16 block pointers and the cache has a fixed capacity
    (64 in the same notes). *)
Definition INODE_SIZE : Z := 64.
Definition INODE_FIRST_BLOCK : Z := 3.
Definition INODES_PER_BLOCK : Z := BLOCK_SIZE `quot` INODE_SIZE.
Definition INODE_PTR_COUNT : nat := 16.
Definition MAX_SYS_OPEN_FILES : nat := 64.

(** ** Machine integers and byte buffers *)

(** The value of an [int] expression after two's-complement wrap-around. *)
Definition wrap_int (x : Z) : Z := (x + 2 ^ 31) `mod` 2 ^ 32 - 2 ^ 31.

(** The byte at index [i] of a buffer, 0 where the list has no such index. *)
Definition byte_at (buf : list Z) (i : nat) : Z := default 0 (buf !! i).

(** Bit [j] of a bitmap block: bit [j mod 8] of byte [j / 8]. *)
Definition bit_of (block : list Z) (j : Z) : bool :=
  Z.testbit (byte_at block (Z.to_nat (j `div` 8))) (j `mod` 8).

(** ** The image file and the system calls of block.c *)

(** What the operating system does at one [read] or [write]: transfer all the
    bytes asked for, at most [n] of them, or none with result -1. *)
Inductive outcome : Type :=
  | Complete
  | Partial (n : Z)
  | Failure.

Inductive event : Type :=
  | EvSeek (offset : Z)
  | EvRead (pos count result : Z)
  | EvWrite (pos count result : Z).

Record world : Type := mkWorld {
  image : list Z;           (* the bytes of the image file *)
  file_pos : Z;             (* the position of image_fd *)
  pending : list outcome;   (* outcomes of the next transfers; none: Complete *)
  trace : list event        (* the system calls made, oldest first *)
}.

Definition next_outcome (w : world) : outcome * list outcome :=
  match pending w with
  | [] => (Complete, [])
  | o :: rest => (o, rest)
  end.

(** The number of bytes a transfer of [count] bytes may move, [None] when the
    call fails. *)
Definition granted (o : outcome) (count : Z) : option nat :=
  match o with
  | Complete => Some (Z.to_nat count)
  | Partial n => Some (Z.to_nat (Z.min n count))
  | Failure => None
  end.

(** At most [n] bytes of the file from position [pos]; fewer at end of file. *)
Definition read_at (pos n : nat) (img : list Z) : list Z :=
  take n (drop pos img).

(** The file after [data] is written at [pos]: a file that ends before
    [pos + length data] is first extended with zero bytes. *)
Definition write_at (pos : nat) (data img : list Z) : list Z :=
  list_inserts pos data
    (img ++ replicate (pos + length data - length img)%nat 0).

(** lseek(image_fd, offset, SEEK_SET) *)
Definition lseek (offset : Z) (w : world) : Z * world :=
  if decide (offset < 0)
  then (-1, mkWorld (image w) (file_pos w) (pending w)
              (trace w ++ [EvSeek offset]))
  else (offset, mkWorld (image w) offset (pending w)
                  (trace w ++ [EvSeek offset])).

(** read(image_fd, buf, count): the bytes read replace the start of [buf]. *)
Definition read (buf : list Z) (count : Z) (w : world) : Z * list Z * world :=
  let '(o, rest) := next_outcome w in
  match granted o count with
  | None =>
      (-1, buf,
       mkWorld (image w) (file_pos w) rest
         (trace w ++ [EvRead (file_pos w) count (-1)]))
  | Some k =>
      let data := read_at (Z.to_nat (file_pos w)) k (image w) in
      let got := Z.of_nat (length data) in
      (got, list_inserts 0 data buf,
       mkWorld (image w) (file_pos w + got) rest
         (trace w ++ [EvRead (file_pos w) count got]))
  end.

(** write(image_fd, buf, count) *)
Definition write (buf : list Z) (count : Z) (w : world) : Z * world :=
  let '(o, rest) := next_outcome w in
  match granted o count with
  | None =>
      (-1,
       mkWorld (image w) (file_pos w) rest
         (trace w ++ [EvWrite (file_pos w) count (-1)]))
  | Some k =>
      let data := take k buf in
      let put := Z.of_nat (length data) in
      (put,
       mkWorld (write_at (Z.to_nat (file_pos w)) data (image w))
         (file_pos w + put) rest
         (trace w ++ [EvWrite (file_pos w) count put]))
  end.

(** ** block.c *)

Definition bread (block_num : Z) (block : list Z) (w : world)
  : list Z * world :=
  let offset := wrap_int (block_num * BLOCK_SIZE) in
  let '(_, w1) := lseek offset w in
  let '(_, block', w2) := read block BLOCK_SIZE w1 in
  (block', w2).

Definition bwrite (block_num : Z) (block : list Z) (w : world) : world :=
  let offset := wrap_int (block_num * BLOCK_SIZE) in
  let '(_, w1) := lseek offset w in
  let '(_, w2) := write block BLOCK_SIZE w1 in
  w2.

(** ** The bitmap helpers called by ialloc *)

(** Modelled from the spec: free.c is not part of the sources; the scan of one
    byte, lowest bit first, for "the first bit equal to 0". The value -1 for
    "none" is the one ialloc tests against. *)
Fixpoint find_low_clear_bit_from (n : nat) (i : Z) (x : Z) : Z :=
  match n with
  | O => -1
  | S m => if Z.testbit x i then find_low_clear_bit_from m (i + 1) x else i
  end.

Definition find_low_clear_bit (x : Z) : Z := find_low_clear_bit_from 8 0 x.

(** Modelled from the spec: free.c is not part of the sources; [find_free]
    "scans bits in increasing order (lowest bit of lowest byte first) and
    returns the index of the first bit equal to 0, or a not-found signal if
    all bits are 1". *)
Fixpoint find_free_from (i : Z) (block : list Z) : Z :=
  match block with
  | [] => -1
  | b :: rest =>
      let bit := find_low_clear_bit b in
      if decide (bit = -1) then find_free_from (i + 1) rest else i * 8 + bit
  end.

Definition find_free (block : list Z) : Z :=
  find_free_from 0 (take (Z.to_nat BLOCK_SIZE) block).

(** Modelled from the spec: free.c is not part of the sources; [set_free]
    "mutates the bit at index in place (no bounds check beyond the block's bit
    capacity)". An index outside the block leaves the list as it is. *)
Definition set_free (block : list Z) (num set : Z) : list Z :=
  let byte_num := num `quot` 8 in
  let bit_num := num `rem` 8 in
  if decide (0 <= num)
  then <[Z.to_nat byte_num :=
           Z.lor (Z.land (byte_at block (Z.to_nat byte_num))
                         (Z.lnot (Z.shiftl 1 bit_num)))
                 (Z.shiftl set bit_num) `mod` 256]> block
  else block.

(** ** inode.c *)

(** [inode_map0] is what the local array [inode_map] holds before bread
    fills it. *)
Definition ialloc (inode_map0 : list Z) (w : world) : Z * world :=
  let '(inode_map, w1) := bread FREE_INODE_BLOCK_NUM inode_map0 w in
  let low_free_bit := find_free inode_map in
  if decide (low_free_bit <> -1)
  then
    let inode_map' := set_free inode_map low_free_bit 1 in
    let w2 := bwrite FREE_INODE_BLOCK_NUM inode_map' w1 in
    (low_free_bit, w2)
  else (low_free_bit, w1).

(** A session of ialloc calls: the inode numbers returned, in order. Each call
    has its own stack array of [BLOCK_SIZE] bytes. *)
Inductive ialloc_run : world -> list Z -> world -> Prop :=
  | run_done w : ialloc_run w [] w
  | run_call w inode_map0 ks w' :
      length inode_map0 = Z.to_nat BLOCK_SIZE ->
      ialloc_run (ialloc inode_map0 w).2 ks w' ->
      ialloc_run w ((ialloc inode_map0 w).1 :: ks) w'.

(** Block [b] of the image file. *)
Definition block_of (img : list Z) (b : Z) : list Z :=
  read_at (Z.to_nat (b * BLOCK_SIZE)) (Z.to_nat BLOCK_SIZE) img.

(** The image holds the bitmap block in full and no transfer is scheduled to
    fall short. *)
Definition reliable (w : world) : Prop :=
  pending w = [] /\
  FREE_INODE_BLOCK_NUM * BLOCK_SIZE + BLOCK_SIZE <= Z.of_nat (length (image w)).

(** The byte offset of the inode bitmap block in the image. *)
Definition bitmap_pos : Z := FREE_INODE_BLOCK_NUM * BLOCK_SIZE.

(** The events a call appended to the log. *)
Definition appended (w w' : world) (evs : list event) : Prop :=
  trace w' = trace w ++ evs.

(** No bit of the block's [8 * BLOCK_SIZE] bits is free. *)
Definition no_free_bit (block : list Z) : Prop :=
  forall j, 0 <= j < 8 * BLOCK_SIZE -> bit_of block j = true.

(** The file position at which bread and bwrite transfer block [b]: the
    one lseek set, or the old one when lseek refused a negative offset. *)
Definition seek_target (b : Z) (w : world) : Z :=
  if decide (wrap_int (b * BLOCK_SIZE) < 0) then file_pos w
  else wrap_int (b * BLOCK_SIZE).

(** ** Inode records *)

(** Modelled from the spec: inode.h is not part of the sources; the on-disk
    fields, then the two fields that live in memory only. The reference count
    is "the number of live logical openers", a natural number. *)
Record inode : Type := mkInode {
  size : Z;
  owner_id : Z;
  permissions : Z;
  flags : Z;
  link_count : Z;
  block_ptr : list Z;
  ref_count : N;      (* in-core only *)
  inode_num : Z       (* in-core only *)
}.

Definition with_ref_count (r : N) (s : inode) : inode :=
  mkInode (size s) (owner_id s) (permissions s) (flags s) (link_count s)
    (block_ptr s) r (inode_num s).

Definition with_inode_num (n : Z) (s : inode) : inode :=
  mkInode (size s) (owner_id s) (permissions s) (flags s) (link_count s)
    (block_ptr s) (ref_count s) n.

(** Two records with the same on-disk fields. *)
Definition same_on_disk (a b : inode) : Prop :=
  size a = size b /\ owner_id a = owner_id b /\
  permissions a = permissions b /\ flags a = flags b /\
  link_count a = link_count b /\ block_ptr a = block_ptr b.

(** Every field holds a value of its C type. *)
Definition inode_wf (s : inode) : Prop :=
  0 <= size s < 2 ^ 32 /\ 0 <= owner_id s < 2 ^ 16 /\
  0 <= permissions s < 2 ^ 8 /\ 0 <= flags s < 2 ^ 8 /\
  0 <= link_count s < 2 ^ 8 /\
  length (block_ptr s) = INODE_PTR_COUNT /\
  Forall (fun p => 0 <= p < 2 ^ 16) (block_ptr s).

(** ** The inode codec *)

(** Modelled from the spec: the byte-accessor collaborator (pack.c) is not
    part of the sources; it reads and writes "fixed-width unsigned integers
    (8/16/32-bit) at a given byte offset". The spec does not fix the byte
    order, so the accessors take it as a parameter. *)
Inductive byte_order : Type := BigEndian | LittleEndian.

(** Modelled from the spec: pack.c is not part of the sources; the [n] bytes
    of an unsigned integer, least significant first, and the value of such
    bytes. *)
Fixpoint le_bytes (n : nat) (v : Z) : list Z :=
  match n with
  | O => []
  | S m => v `mod` 256 :: le_bytes m (v `div` 256)
  end.

Fixpoint le_value (bs : list Z) : Z :=
  match bs with
  | [] => 0
  | b :: rest => b + 256 * le_value rest
  end.

(** Modelled from the spec: pack.c is not part of the sources; the bytes of a
    fixed-width unsigned integer in the given order, and their value. *)
Definition uint_bytes (order : byte_order) (n : nat) (v : Z) : list Z :=
  match order with
  | LittleEndian => le_bytes n v
  | BigEndian => reverse (le_bytes n v)
  end.

Definition uint_value (order : byte_order) (bs : list Z) : Z :=
  match order with
  | LittleEndian => le_value bs
  | BigEndian => le_value (reverse bs)
  end.

(** inode.c holds ialloc only: locate, decode, encode, readInode, writeInode,
    the cache scans, iget and iput below follow sections 4.3 to 4.5 of the
    spec (the notes kept as comments in inode.c describe the same
    functions). *)
Section Codec.

Variable order : byte_order.

(** Modelled from the spec: pack.c is not part of the sources; "read/write
    fixed-width unsigned integers (8/16/32-bit) at a given byte offset". *)
Definition read_uint (n : nat) (block : list Z) (addr : Z) : Z :=
  uint_value order (read_at (Z.to_nat addr) n block).

Definition write_uint (n : nat) (block : list Z) (addr v : Z) : list Z :=
  list_inserts (Z.to_nat addr) (uint_bytes order n v) block.

Definition read_u8 := read_uint 1.
Definition read_u16 := read_uint 2.
Definition read_u32 := read_uint 4.
Definition write_u8 := write_uint 1.
Definition write_u16 := write_uint 2.
Definition write_u32 := write_uint 4.

(** Modelled from the spec: locate is not part of the sources; "blockNum =
    inodeNum / inodesPerBlock + firstInodeBlock and byteOffset = (inodeNum
    mod inodesPerBlock) * inodeRecordSize", with the division and remainder
    of C on an [int]. *)
Definition locate (inode_num : Z) : Z * Z :=
  let block_num := inode_num `quot` INODES_PER_BLOCK + INODE_FIRST_BLOCK in
  let block_offset := inode_num `rem` INODES_PER_BLOCK in
  let block_offset_bytes := block_offset * INODE_SIZE in
  (block_num, block_offset_bytes).

(** Modelled from the spec: decode is not part of the sources; it "reads each
    fixed-width field at its documented fixed sub-offset": size at 0 (4
    bytes), owner id at 4 (2), permissions at 6, flags at 7, link count at 8,
    then 16 two-byte block pointers. The in-core fields of the result are
    0. *)
Definition decode (block : list Z) (off : Z) : inode :=
  {| size := read_u32 block off;
     owner_id := read_u16 block (off + 4);
     permissions := read_u8 block (off + 6);
     flags := read_u8 block (off + 7);
     link_count := read_u8 block (off + 8);
     block_ptr :=
       map (fun i => read_u16 block (off + 9 + 2 * Z.of_nat i))
           (seq 0 INODE_PTR_COUNT);
     ref_count := 0;
     inode_num := 0 |}.

(** Modelled from the spec: encode is not part of the sources; it "writes
    the same fields back", the in-core fields left out. *)
Fixpoint write_block_ptrs (block : list Z) (addr : Z) (ptrs : list Z)
  : list Z :=
  match ptrs with
  | [] => block
  | p :: rest => write_block_ptrs (write_u16 block addr p) (addr + 2) rest
  end.

Definition encode (block : list Z) (off : Z) (s : inode) : list Z :=
  let b1 := write_u32 block off (size s) in
  let b2 := write_u16 b1 (off + 4) (owner_id s) in
  let b3 := write_u8 b2 (off + 6) (permissions s) in
  let b4 := write_u8 b3 (off + 7) (flags s) in
  let b5 := write_u8 b4 (off + 8) (link_count s) in
  write_block_ptrs b5 (off + 9) (take INODE_PTR_COUNT (block_ptr s)).


(** Modelled from the spec: writeInode is not part of the sources; "locate
    block+offset for record's inode number, BlockStore.read the target block,
    encode the record's fields into the offset, BlockStore.write the modified
    block back". *)
Definition write_inode (s : inode) (w : world) : world :=
  let '(block_num, off) := locate (inode_num s) in
  let '(block, w1) :=
    bread block_num (replicate (Z.to_nat BLOCK_SIZE) 0) w in
  bwrite block_num (encode block off s) w1.

(** ** The in-core cache: a handle is the index of a slot. *)

(** Modelled from the spec: the cache is not part of the sources; "a
    fixed-capacity collection of inode slots", here next to the image file it
    is loaded from. *)
Record fs : Type := mkFs {
  incore : list inode;
  disk : world
}.




(** Modelled from the spec: iput is not part of the sources; steps 1 to 3 of
    section 4.5. A handle that names no slot leaves the state as it is. *)
Definition iput (h : nat) (st : fs) : fs :=
  match incore st !! h with
  | None => st
  | Some s =>
      if decide (ref_count s = 0%N) then st
      else
        let s' := with_ref_count (ref_count s - 1)%N s in
        let slots := <[h := s']> (incore st) in
        if decide (ref_count s' = 0%N)
        then mkFs slots (write_inode s' (disk st))
        else mkFs slots (disk st)
  end.

End Codec.

(** Modelled from the spec: "the slot pool is zero-initialized (FREE, ref=0)
    at startup". *)
Definition zero_inode : inode := mkInode 0 0 0 0 0 (replicate 16 0) 0 0.
Definition fresh_incore : list inode := replicate MAX_SYS_OPEN_FILES zero_inode.

(** A formatted image of [n] zero blocks whose inode bitmap block holds the
    byte [b] everywhere. *)
Definition image_with_bitmap (n : nat) (b : Z) : list Z :=
  replicate (Z.to_nat BLOCK_SIZE) 0 ++ replicate (Z.to_nat BLOCK_SIZE) b ++
  replicate ((n - 2) * Z.to_nat BLOCK_SIZE) 0.

Definition world_of (img : list Z) : world := mkWorld img 0 [] [].

Definition scratch : list Z := replicate (Z.to_nat BLOCK_SIZE) 170.

(** A formatted three-block image whose first three inodes are taken. *)
Definition w_three_taken : world := world_of (image_with_bitmap 3 7).

(** A formatted three-block image with no inode left. *)
Definition w_exhausted : world := world_of (image_with_bitmap 3 255).

(** The result of the read call inside bread, and of the write call inside
    bwrite: the number of bytes transferred, or -1. Both functions drop it. *)
Definition bread_transfer (block_num : Z) (block : list Z) (w : world) : Z :=
  (read block BLOCK_SIZE (lseek (wrap_int (block_num * BLOCK_SIZE)) w).2).1.1.

Definition bwrite_transfer (block_num : Z) (block : list Z) (w : world) : Z :=
  (write block BLOCK_SIZE (lseek (wrap_int (block_num * BLOCK_SIZE)) w).2).1.

(** In the spec's words: "a short read/write or I/O error is [...] propagated
    as a storage error". The caller of bread holds the buffer bread returns,
    the caller of bwrite holds nothing; the failure is surfaced when some test
    on what the caller holds tells an incomplete transfer from a complete
    one. *)
Definition bread_surfaces_failure : Prop :=
  exists detect : list Z -> bool,
    forall block_num block w,
      detect (bread block_num block w).1 = true <->
      bread_transfer block_num block w <> BLOCK_SIZE.

Definition bwrite_surfaces_failure : Prop :=
  exists detect : unit -> bool,
    forall block_num block w,
      detect tt = true <-> bwrite_transfer block_num block w <> BLOCK_SIZE.

(** The image of [w_three_taken] behind a descriptor whose next transfer
    fails, and one whose next transfer stops after 100 bytes. *)
Definition w_failing : world := mkWorld (image_with_bitmap 3 7) 0 [Failure] [].
Definition w_short : world := mkWorld (image_with_bitmap 3 7) 0 [Partial 100] [].

Definition zero_block : list Z := replicate (Z.to_nat BLOCK_SIZE) 0.

(** The number of bytes of a record that hold fields: 9 bytes of scalars and
    16 two-byte block pointers. *)
Definition INODE_FIELD_BYTES : Z := 9 + 2 * Z.of_nat INODE_PTR_COUNT.

(** A record with every field in use, and its in-core fields set. *)
Definition sample_inode : inode :=
  mkInode 70000 515 7 2 1 (List.map Z.of_nat (seq 1000 16)) 5 130.


(** The cache at start-up over a formatted eight-block image, and a cache
    whose 64 slots hold inodes 100 to 163. *)
Definition st_fresh : fs := mkFs fresh_incore (world_of (image_with_bitmap 8 0)).

(** Block number [b] has a byte offset that lseek accepts: it is not negative
    and fits an [int]. *)
Definition valid_block (b : Z) : Prop := 0 <= b /\ b * BLOCK_SIZE < 2 ^ 31.

(** The image holds block [b] in full. *)
Definition holds_block (img : list Z) (b : Z) : Prop :=
  b * BLOCK_SIZE + BLOCK_SIZE <= Z.of_nat (length img).

(** Exactly the bits below [m] of the bitmap block are set. *)
Definition taken_below (m : Z) (block : list Z) : Prop :=
  forall j, 0 <= j < 8 * BLOCK_SIZE -> bit_of block j = bool_decide (j < m).

(** A formatted three-block image with no inode taken; the image of
    [w_three_taken] behind a descriptor whose read completes and whose write
    then fails. *)
Definition w_fresh : world := world_of (image_with_bitmap 3 0).
Definition w_write_fails : world :=
  mkWorld (image_with_bitmap 3 7) 0 [Complete; Failure] [].

(** * Properties *)

(** ** Lists as byte arrays and as files *)

Lemma BLOCK_SIZE_pos : (0 < Z.to_nat BLOCK_SIZE)%nat.
Proof. unfold BLOCK_SIZE. lia. Qed.

Lemma BLOCK_SIZE_nat : Z.of_nat (Z.to_nat BLOCK_SIZE) = BLOCK_SIZE.
Proof. unfold BLOCK_SIZE. lia. Qed.

Lemma lookup_list_inserts {A} (l k : list A) (i j : nat) :
  list_inserts i k l !! j =
  if decide ((i <= j < i + length k)%nat /\ (j < length l)%nat)
  then k !! (j - i)%nat else l !! j.
Proof.
  case_decide as Hin.
  - apply list_lookup_inserts; lia.
  - destruct (decide (j < i)%nat); [by apply list_lookup_inserts_lt|].
    destruct (decide (i + length k <= j)%nat);
      [by apply list_lookup_inserts_ge|].
    rewrite (proj2 (lookup_ge_None l j)) by lia.
    apply lookup_ge_None. rewrite length_inserts. lia.
Qed.

Lemma lookup_read_at (l : list Z) (pos n i : nat) :
  read_at pos n l !! i = if decide (i < n)%nat then l !! (pos + i)%nat else None.
Proof.
  unfold read_at. rewrite lookup_take. case_decide; [|done].
  by rewrite lookup_drop.
Qed.

Lemma length_read_at (l : list Z) (pos n : nat) :
  length (read_at pos n l) = (n `min` (length l - pos))%nat.
Proof. unfold read_at. by rewrite length_take, length_drop. Qed.

Lemma read_at_inserts_same (l d : list Z) (pos : nat) :
  (pos + length d <= length l)%nat ->
  read_at pos (length d) (list_inserts pos d l) = d.
Proof.
  intros Hlen. apply list_eq. intros i.
  rewrite lookup_read_at, lookup_list_inserts.
  case_decide as Hi.
  - rewrite decide_True by lia. f_equal. lia.
  - symmetry. apply lookup_ge_None. lia.
Qed.

Lemma byte_at_inserts_outside (l d : list Z) (pos i : nat) :
  (i < pos \/ pos + length d <= i)%nat ->
  byte_at (list_inserts pos d l) i = byte_at l i.
Proof.
  intros Hi. unfold byte_at. rewrite lookup_list_inserts.
  by rewrite decide_False by lia.
Qed.

Lemma byte_at_app_zeros (l : list Z) (m i : nat) :
  byte_at (l ++ replicate m 0) i = byte_at l i.
Proof.
  unfold byte_at. rewrite lookup_app.
  destruct (l !! i) as [b|] eqn:Hl; [done|].
  destruct (replicate m 0 !! (i - length l)%nat) as [b|] eqn:Hr; [|done].
  by apply lookup_replicate_1 in Hr as [-> _].
Qed.

Lemma write_at_in_range (pos : nat) (d img : list Z) :
  (pos + length d <= length img)%nat ->
  write_at pos d img = list_inserts pos d img.
Proof.
  intros Hlen. unfold write_at.
  replace (pos + length d - length img)%nat with 0%nat by lia.
  simpl. by rewrite app_nil_r.
Qed.

Lemma length_write_at (pos : nat) (d img : list Z) :
  length (write_at pos d img) = (length img `max` (pos + length d))%nat.
Proof.
  unfold write_at. rewrite length_inserts, length_app, length_replicate. lia.
Qed.

Lemma byte_at_write_at_outside (pos : nat) (d img : list Z) (i : nat) :
  (i < pos \/ pos + length d <= i)%nat ->
  byte_at (write_at pos d img) i = byte_at img i.
Proof.
  intros Hi. unfold write_at.
  by rewrite byte_at_inserts_outside, byte_at_app_zeros.
Qed.

Lemma read_at_write_at (pos : nat) (d img : list Z) :
  read_at pos (length d) (write_at pos d img) = d.
Proof.
  unfold write_at. apply read_at_inserts_same.
  rewrite length_app, length_replicate. lia.
Qed.

Lemma read_at_full (l : list Z) :
  read_at 0 (length l) l = l.
Proof. unfold read_at. rewrite drop_0. apply firstn_all. Qed.

Lemma inserts_whole (d l : list Z) :
  length d = length l -> list_inserts 0 d l = d.
Proof.
  intros Hlen. rewrite <- (read_at_inserts_same l d 0) at 2 by lia.
  rewrite <- (length_inserts l 0 d) in Hlen. rewrite Hlen.
  by rewrite read_at_full.
Qed.

(** ** bread and bwrite *)

Lemma wrap_int_small (x : Z) : 0 <= x < 2 ^ 31 -> wrap_int x = x.
Proof.
  intros Hx. unfold wrap_int.
  rewrite Z.mod_small; lia.
Qed.

Lemma length_block_of (img : list Z) (b : Z) :
  (Z.to_nat (b * BLOCK_SIZE) + Z.to_nat BLOCK_SIZE <= length img)%nat ->
  length (block_of img b) = Z.to_nat BLOCK_SIZE.
Proof. intros Hlen. unfold block_of. rewrite length_read_at. lia. Qed.

Lemma bread_image (b : Z) (buf : list Z) (w : world) :
  image (bread b buf w).2 = image w.
Proof.
  unfold bread, lseek, read, next_outcome.
  case_decide; destruct (pending w) as [|o rest]; simpl;
    try destruct (granted o BLOCK_SIZE); done.
Qed.

Lemma bread_trace (b : Z) (buf : list Z) (w : world) :
  exists got,
    trace (bread b buf w).2 =
    trace w ++ [EvSeek (wrap_int (b * BLOCK_SIZE));
                EvRead (seek_target b w) BLOCK_SIZE got].
Proof.
  unfold bread, lseek, read, next_outcome, seek_target.
  case_decide; destruct (pending w) as [|o rest]; simpl;
    try destruct (granted o BLOCK_SIZE); simpl;
    rewrite <- app_assoc; simpl; eauto.
Qed.

Lemma length_bread (b : Z) (buf : list Z) (w : world) :
  length (bread b buf w).1 = length buf.
Proof.
  unfold bread, lseek, read, next_outcome.
  case_decide; destruct (pending w) as [|o rest]; simpl;
    try destruct (granted o BLOCK_SIZE); simpl;
    rewrite ?length_inserts; done.
Qed.

Lemma bwrite_trace (b : Z) (blk : list Z) (w : world) :
  exists put,
    trace (bwrite b blk w) =
    trace w ++ [EvSeek (wrap_int (b * BLOCK_SIZE));
                EvWrite (seek_target b w) BLOCK_SIZE put].
Proof.
  unfold bwrite, lseek, write, next_outcome, seek_target.
  case_decide; destruct (pending w) as [|o rest]; simpl;
    try destruct (granted o BLOCK_SIZE); simpl;
    rewrite <- app_assoc; simpl; eauto.
Qed.

Lemma granted_le (o : outcome) (count : Z) (k : nat) :
  granted o count = Some k -> (k <= Z.to_nat count)%nat.
Proof. destruct o; simpl; intros [= <-]; lia. Qed.

Lemma bwrite_outside (b : Z) (blk : list Z) (w : world) (i : nat) :
  (i < Z.to_nat (seek_target b w) \/
   Z.to_nat (seek_target b w) + Z.to_nat BLOCK_SIZE <= i)%nat ->
  byte_at (image (bwrite b blk w)) i = byte_at (image w) i.
Proof.
  intros Hi. unfold bwrite, lseek, write, next_outcome, seek_target in *.
  assert (Hout : forall o pos k,
    granted o BLOCK_SIZE = Some k ->
    (i < Z.to_nat pos \/ Z.to_nat pos + Z.to_nat BLOCK_SIZE <= i)%nat ->
    byte_at (write_at (Z.to_nat pos) (take k blk) (image w)) i =
    byte_at (image w) i).
  { intros o pos k Hk Hpos. apply granted_le in Hk.
    apply byte_at_write_at_outside. rewrite length_take. lia. }
  destruct (pending w) as [|o rest]; [set (o := Complete)|];
    case_decide; cbn [image file_pos pending trace] in *;
    (destruct (granted o BLOCK_SIZE) as [k|] eqn:Hg; [|done]);
    apply (Hout o _ k Hg); done.
Qed.

Lemma bread_complete (b : Z) (buf : list Z) (w : world) :
  0 <= b -> b * BLOCK_SIZE < 2 ^ 31 ->
  pending w = [] ->
  (Z.to_nat (b * BLOCK_SIZE) + Z.to_nat BLOCK_SIZE <= length (image w))%nat ->
  length buf = Z.to_nat BLOCK_SIZE ->
  bread b buf w =
  (block_of (image w) b,
   mkWorld (image w) (b * BLOCK_SIZE + BLOCK_SIZE) []
     (trace w ++ [EvSeek (b * BLOCK_SIZE);
                  EvRead (b * BLOCK_SIZE) BLOCK_SIZE BLOCK_SIZE])).
Proof.
  intros Hb Hmax Hpend Hlen Hbuf.
  assert (0 <= b * BLOCK_SIZE) by (unfold BLOCK_SIZE; lia).
  unfold bread, lseek, read, next_outcome.
  rewrite wrap_int_small by lia.
  rewrite decide_False by lia. cbn [image file_pos pending trace].
  rewrite Hpend. cbn [granted].
  fold (block_of (image w) b).
  rewrite (length_block_of _ _ Hlen), BLOCK_SIZE_nat.
  rewrite inserts_whole by (rewrite length_block_of; done).
  by rewrite <- app_assoc.
Qed.

Lemma bwrite_complete (b : Z) (blk : list Z) (w : world) :
  0 <= b -> b * BLOCK_SIZE < 2 ^ 31 ->
  pending w = [] ->
  (Z.to_nat (b * BLOCK_SIZE) + Z.to_nat BLOCK_SIZE <= length (image w))%nat ->
  length blk = Z.to_nat BLOCK_SIZE ->
  bwrite b blk w =
  mkWorld (list_inserts (Z.to_nat (b * BLOCK_SIZE)) blk (image w))
    (b * BLOCK_SIZE + BLOCK_SIZE) []
    (trace w ++ [EvSeek (b * BLOCK_SIZE);
                 EvWrite (b * BLOCK_SIZE) BLOCK_SIZE BLOCK_SIZE]).
Proof.
  intros Hb Hmax Hpend Hlen Hblk.
  assert (0 <= b * BLOCK_SIZE) by (unfold BLOCK_SIZE; lia).
  unfold bwrite, lseek, write, next_outcome.
  rewrite wrap_int_small by lia.
  rewrite decide_False by lia. cbn [image file_pos pending trace].
  rewrite Hpend. cbn [granted].
  rewrite <- Hblk, firstn_all, Hblk, BLOCK_SIZE_nat.
  rewrite write_at_in_range by lia.
  by rewrite <- app_assoc.
Qed.

Lemma block_of_inserts (img blk : list Z) (b : Z) :
  (Z.to_nat (b * BLOCK_SIZE) + Z.to_nat BLOCK_SIZE <= length img)%nat ->
  length blk = Z.to_nat BLOCK_SIZE ->
  block_of (list_inserts (Z.to_nat (b * BLOCK_SIZE)) blk img) b = blk.
Proof.
  intros Hlen Hblk. unfold block_of. rewrite <- Hblk.
  apply read_at_inserts_same. lia.
Qed.

(** ** The bitmap *)

Lemma bit_of_cons_low (b : Z) (rest : list Z) (j : Z) :
  0 <= j < 8 -> bit_of (b :: rest) j = Z.testbit b j.
Proof.
  intros Hj. unfold bit_of, byte_at.
  rewrite Z.div_small, Z.mod_small by lia. done.
Qed.

Lemma bit_of_cons_high (b : Z) (rest : list Z) (j : Z) :
  8 <= j -> bit_of (b :: rest) j = bit_of rest (j - 8).
Proof.
  intros Hj. unfold bit_of, byte_at.
  replace j with ((j - 8) + 1 * 8) at 1 2 by lia.
  rewrite Z.div_add, Z.mod_add by lia.
  assert (0 <= (j - 8) `div` 8) by (apply Z.div_pos; lia).
  replace (Z.to_nat ((j - 8) `div` 8 + 1))
    with (S (Z.to_nat ((j - 8) `div` 8))) by lia.
  done.
Qed.

Lemma bit_of_take (n : nat) (block : list Z) (j : Z) :
  0 <= j < 8 * Z.of_nat n -> bit_of (take n block) j = bit_of block j.
Proof.
  intros Hj. unfold bit_of, byte_at.
  rewrite lookup_take_lt; [done|].
  assert (j `div` 8 < Z.of_nat n) by (apply Z.div_lt_upper_bound; lia).
  assert (0 <= j `div` 8) by (apply Z.div_pos; lia).
  lia.
Qed.

Lemma find_low_clear_bit_from_spec (n : nat) (x : Z) : forall i, 0 <= i ->
  (find_low_clear_bit_from n i x = -1 /\
   forall j, i <= j < i + Z.of_nat n -> Z.testbit x j = true) \/
  (i <= find_low_clear_bit_from n i x < i + Z.of_nat n /\
   Z.testbit x (find_low_clear_bit_from n i x) = false /\
   forall j, i <= j < find_low_clear_bit_from n i x -> Z.testbit x j = true).
Proof.
  induction n as [|m IH]; intros i Hi; simpl.
  - left. split; [done|]. intros j Hj. lia.
  - destruct (Z.testbit x i) eqn:Hbit.
    + destruct (IH (i + 1)) as [[Hr Hall]|(Hr & Hclear & Hlow)]; [lia|..].
      * left. split; [done|]. intros j Hj.
        destruct (decide (j = i)) as [->|]; [done|]. apply Hall. lia.
      * right. split; [lia|]. split; [done|]. intros j Hj.
        destruct (decide (j = i)) as [->|]; [done|]. apply Hlow. lia.
    + right. split; [lia|]. split; [done|]. intros j Hj. lia.
Qed.

Lemma find_low_clear_bit_spec (x : Z) :
  (find_low_clear_bit x = -1 /\
   forall j, 0 <= j < 8 -> Z.testbit x j = true) \/
  (0 <= find_low_clear_bit x < 8 /\
   Z.testbit x (find_low_clear_bit x) = false /\
   forall j, 0 <= j < find_low_clear_bit x -> Z.testbit x j = true).
Proof. apply (find_low_clear_bit_from_spec 8 x 0). lia. Qed.

Lemma find_free_from_spec (block : list Z) : forall i, 0 <= i ->
  (find_free_from i block = -1 /\
   forall j, 0 <= j < 8 * Z.of_nat (length block) -> bit_of block j = true) \/
  (8 * i <= find_free_from i block < 8 * i + 8 * Z.of_nat (length block) /\
   bit_of block (find_free_from i block - 8 * i) = false /\
   forall j, 0 <= j < find_free_from i block - 8 * i ->
             bit_of block j = true).
Proof.
  induction block as [|b rest IH]; intros i Hi.
  - left. split; [done|]. simpl. intros j Hj. lia.
  - cbn [find_free_from length].
    destruct (find_low_clear_bit_spec b) as [[Hr Hall]|(Hr & Hclear & Hlow)].
    + rewrite decide_True by done.
      destruct (IH (i + 1)) as [[Hr' Hall']|(Hr' & Hclear' & Hlow')]; [lia|..].
      * left. split; [done|]. intros j Hj.
        destruct (decide (j < 8)).
        -- rewrite bit_of_cons_low by lia. apply Hall. lia.
        -- rewrite bit_of_cons_high by lia. apply Hall'. lia.
      * right. split; [lia|]. split.
        -- rewrite bit_of_cons_high by lia. rewrite <- Hclear'. f_equal. lia.
        -- intros j Hj. destruct (decide (j < 8)).
           ++ rewrite bit_of_cons_low by lia. apply Hall. lia.
           ++ rewrite bit_of_cons_high by lia. apply Hlow'. lia.
    + rewrite decide_False by lia. right. split; [lia|].
      replace (i * 8 + find_low_clear_bit b - 8 * i)
        with (find_low_clear_bit b) by lia.
      split.
      * by rewrite bit_of_cons_low by lia.
      * intros j Hj. rewrite bit_of_cons_low by lia. apply Hlow. lia.
Qed.

(** find_free returns -1 on a block with no free bit and the lowest free bit
    otherwise. *)
Lemma find_free_spec (block : list Z) :
  length block = Z.to_nat BLOCK_SIZE ->
  (find_free block = -1 /\ no_free_bit block) \/
  (0 <= find_free block < 8 * BLOCK_SIZE /\
   bit_of block (find_free block) = false /\
   forall j, 0 <= j < find_free block -> bit_of block j = true).
Proof.
  intros Hlen. unfold find_free, no_free_bit.
  pose proof BLOCK_SIZE_nat as Hbs.
  set (blk := take (Z.to_nat BLOCK_SIZE) block).
  assert (Hblk : Z.of_nat (length blk) = BLOCK_SIZE).
  { unfold blk. rewrite length_take. lia. }
  assert (Hbit : forall j, 0 <= j < 8 * BLOCK_SIZE ->
                           bit_of blk j = bit_of block j).
  { intros j Hj. apply bit_of_take. lia. }
  destruct (find_free_from_spec blk 0) as [[Hr Hall]|(Hr & Hclear & Hlow)];
    [lia|..].
  - left. split; [done|]. intros j Hj. rewrite <- Hbit by done.
    apply Hall. lia.
  - rewrite Z.sub_0_r in *.
    right. split; [lia|]. split.
    + rewrite <- Hbit by lia. done.
    + intros j Hj. rewrite <- Hbit by lia. by apply Hlow.
Qed.

Lemma find_free_minus_one (block : list Z) :
  length block = Z.to_nat BLOCK_SIZE ->
  find_free block = -1 <-> no_free_bit block.
Proof.
  intros Hlen. destruct (find_free_spec block Hlen)
    as [[Hr Hall]|(Hr & Hclear & Hlow)].
  - done.
  - split; [lia|]. intros Hall. rewrite Hall in Hclear by done. done.
Qed.

(** find_free never returns the index of a bit that is set. *)
Lemma find_free_skips_set_bit (block : list Z) (k : Z) :
  length block = Z.to_nat BLOCK_SIZE ->
  k <> -1 -> bit_of block k = true -> find_free block <> k.
Proof.
  intros Hlen Hk Hset Heq.
  destruct (find_free_spec block Hlen) as [[Hr _]|(_ & Hclear & _)].
  - lia.
  - rewrite Heq, Hset in Hclear. done.
Qed.

Lemma length_set_free (block : list Z) (num set : Z) :
  length (set_free block num set) = length block.
Proof. unfold set_free. case_decide; [apply length_insert|done]. Qed.

Lemma testbit_set_byte (b r m : Z) :
  0 <= r < 8 -> 0 <= m < 8 ->
  Z.testbit (Z.lor (Z.land b (Z.lnot (Z.shiftl 1 r))) (Z.shiftl 1 r) `mod` 256) m
  = if decide (m = r) then true else Z.testbit b m.
Proof.
  intros Hr Hm.
  change 256 with (2 ^ 8).
  rewrite Z.mod_pow2_bits_low by lia.
  rewrite Z.lor_spec, Z.land_spec, Z.lnot_spec by lia.
  rewrite Z.shiftl_1_l, Z.pow2_bits_eqb by lia.
  case_decide as Hmr.
  - subst. rewrite Z.eqb_refl. apply orb_true_r.
  - rewrite (proj2 (Z.eqb_neq r m)) by lia.
    simpl. by rewrite andb_true_r, orb_false_r.
Qed.

(** set_free with value 1 sets bit [k] and no other bit. *)
Lemma bit_of_set_free (block : list Z) (k j : Z) :
  0 <= k < 8 * Z.of_nat (length block) -> 0 <= j ->
  bit_of (set_free block k 1) j =
  if decide (j = k) then true else bit_of block j.
Proof.
  intros Hk Hj. unfold set_free. rewrite decide_True by lia.
  rewrite Z.quot_div_nonneg, Z.rem_mod_nonneg by lia.
  assert (0 <= k `div` 8 < Z.of_nat (length block)).
  { split; [apply Z.div_pos; lia|apply Z.div_lt_upper_bound; lia]. }
  assert (0 <= j `div` 8) by (apply Z.div_pos; lia).
  pose proof (Z.mod_pos_bound k 8 ltac:(lia)).
  pose proof (Z.mod_pos_bound j 8 ltac:(lia)).
  pose proof (Z.div_mod k 8 ltac:(lia)).
  pose proof (Z.div_mod j 8 ltac:(lia)).
  unfold bit_of at 1. unfold byte_at at 1.
  destruct (decide (j `div` 8 = k `div` 8)) as [Heq|Hne].
  - rewrite Heq, list_lookup_insert_eq by lia. cbn [default id].
    rewrite testbit_set_byte by lia.
    destruct (decide (j `mod` 8 = k `mod` 8)) as [Hm|Hm].
    + rewrite decide_True by lia. done.
    + rewrite decide_False by lia. unfold bit_of. by rewrite Heq.
  - rewrite list_lookup_insert_ne by lia.
    rewrite decide_False by (intros ->; done). done.
Qed.

(** ** ialloc *)

Lemma ialloc_result (buf : list Z) (w : world) :
  (ialloc buf w).1 = find_free (bread FREE_INODE_BLOCK_NUM buf w).1.
Proof.
  unfold ialloc. destruct (bread FREE_INODE_BLOCK_NUM buf w) as [blk w1].
  by case_decide.
Qed.

Lemma reliable_bounds (w : world) :
  reliable w ->
  pending w = [] /\
  (Z.to_nat (FREE_INODE_BLOCK_NUM * BLOCK_SIZE) + Z.to_nat BLOCK_SIZE
   <= length (image w))%nat.
Proof.
  unfold reliable, FREE_INODE_BLOCK_NUM, BLOCK_SIZE. intros [Hp Hlen].
  split; [done|lia].
Qed.

(** On a reliable image a call of ialloc is a complete read of the bitmap
    block, the scan, and on success a complete write of the updated block. *)
Lemma ialloc_complete (buf : list Z) (w : world) :
  reliable w -> length buf = Z.to_nat BLOCK_SIZE ->
  ialloc buf w =
  let blk := block_of (image w) FREE_INODE_BLOCK_NUM in
  if decide (find_free blk <> -1)
  then (find_free blk,
        mkWorld
          (list_inserts (Z.to_nat bitmap_pos)
             (set_free blk (find_free blk) 1) (image w))
          (bitmap_pos + BLOCK_SIZE) []
          (trace w ++ [EvSeek bitmap_pos;
                       EvRead bitmap_pos BLOCK_SIZE BLOCK_SIZE;
                       EvSeek bitmap_pos;
                       EvWrite bitmap_pos BLOCK_SIZE BLOCK_SIZE]))
  else (find_free blk,
        mkWorld (image w) (bitmap_pos + BLOCK_SIZE) []
          (trace w ++ [EvSeek bitmap_pos;
                       EvRead bitmap_pos BLOCK_SIZE BLOCK_SIZE])).
Proof.
  intros Hrel Hbuf. apply reliable_bounds in Hrel as [Hpend Hlen].
  assert (Hb : 0 <= FREE_INODE_BLOCK_NUM) by (unfold FREE_INODE_BLOCK_NUM; lia).
  assert (Hmax : FREE_INODE_BLOCK_NUM * BLOCK_SIZE < 2 ^ 31)
    by (unfold FREE_INODE_BLOCK_NUM, BLOCK_SIZE; lia).
  unfold ialloc. rewrite bread_complete by done.
  cbv zeta. fold bitmap_pos.
  case_decide; [|done].
  rewrite bwrite_complete; try done.
  - fold bitmap_pos. cbn [image trace]. by rewrite <- app_assoc.
  - rewrite length_set_free. by apply length_block_of.
Qed.

Lemma ialloc_keeps_reliable (buf : list Z) (w : world) :
  reliable w -> length buf = Z.to_nat BLOCK_SIZE ->
  reliable (ialloc buf w).2.
Proof.
  intros Hrel Hbuf. rewrite ialloc_complete by done. cbv zeta.
  destruct Hrel as [Hpend Hlen].
  case_decide; split; cbn [snd pending image]; try done.
  by rewrite length_inserts.
Qed.

(** A successful call leaves in the bitmap block the block it read with the
    returned bit set. *)
Lemma ialloc_bitmap_after (buf : list Z) (w : world) :
  reliable w -> length buf = Z.to_nat BLOCK_SIZE ->
  (ialloc buf w).1 <> -1 ->
  block_of (image (ialloc buf w).2) FREE_INODE_BLOCK_NUM =
  set_free (block_of (image w) FREE_INODE_BLOCK_NUM) (ialloc buf w).1 1.
Proof.
  intros Hrel Hbuf. rewrite ialloc_complete by done. cbv zeta.
  apply reliable_bounds in Hrel as [Hpend Hlen].
  case_decide; cbn [fst snd image]; [intros _|done].
  unfold bitmap_pos. apply block_of_inserts; [done|].
  rewrite length_set_free. by apply length_block_of.
Qed.

Lemma ialloc_keeps_set_bits (buf : list Z) (w : world) (k : Z) :
  reliable w -> length buf = Z.to_nat BLOCK_SIZE -> 0 <= k ->
  bit_of (block_of (image w) FREE_INODE_BLOCK_NUM) k = true ->
  bit_of (block_of (image (ialloc buf w).2) FREE_INODE_BLOCK_NUM) k = true.
Proof.
  intros Hrel Hbuf Hk Hset.
  destruct (decide ((ialloc buf w).1 = -1)) as [Hnone|Hsome].
  - revert Hnone. rewrite ialloc_complete by done. cbv zeta.
    case_decide; cbn [fst snd image]; [lia|done].
  - rewrite ialloc_bitmap_after by done.
    pose proof (proj2 (reliable_bounds w Hrel)) as Hlen.
    pose proof (length_block_of _ _ Hlen) as Hblk.
    assert (Hr : (ialloc buf w).1 =
                 find_free (block_of (image w) FREE_INODE_BLOCK_NUM)).
    { rewrite ialloc_complete by done. cbv zeta. by case_decide. }
    destruct (find_free_spec _ Hblk) as [[Hm _]|(Hrange & _)]; [lia|].
    rewrite bit_of_set_free.
    + by case_decide.
    + rewrite Hr, Hblk, BLOCK_SIZE_nat. lia.
    + done.
Qed.

(** Once bit [k] is set in the bitmap block, no call of a session returns
    [k]. *)
Lemma ialloc_run_skips_set_bit (k : Z) (w w' : world) (ks : list Z) :
  ialloc_run w ks w' ->
  reliable w -> 0 <= k ->
  bit_of (block_of (image w) FREE_INODE_BLOCK_NUM) k = true ->
  k ∉ ks.
Proof.
  induction 1 as [w|w buf ks w' Hbuf Hrun IH]; intros Hrel Hk Hset.
  - apply not_elem_of_nil.
  - apply not_elem_of_cons. split.
    + intros Heq.
      pose proof (proj2 (reliable_bounds w Hrel)) as Hlen.
      apply (find_free_skips_set_bit _ k (length_block_of _ _ Hlen));
        [lia|done|].
      rewrite Heq, ialloc_complete by done. cbv zeta. by case_decide.
    + apply IH; [by apply ialloc_keeps_reliable|done|].
      by apply ialloc_keeps_set_bits.
Qed.

(** A successful call returns a bit index in range and leaves that bit set
    in the bitmap block on disk. *)
Lemma ialloc_sets_returned_bit (buf : list Z) (w : world) :
  reliable w -> length buf = Z.to_nat BLOCK_SIZE ->
  (ialloc buf w).1 <> -1 ->
  0 <= (ialloc buf w).1 < 8 * BLOCK_SIZE /\
  bit_of (block_of (image (ialloc buf w).2) FREE_INODE_BLOCK_NUM)
    (ialloc buf w).1 = true.
Proof.
  intros Hrel Hbuf Hfound.
  pose proof (proj2 (reliable_bounds w Hrel)) as Hlen.
  pose proof (length_block_of _ _ Hlen) as Hblk.
  assert (Hk : (ialloc buf w).1 =
               find_free (block_of (image w) FREE_INODE_BLOCK_NUM)).
  { rewrite ialloc_complete by done. cbv zeta. by case_decide. }
  destruct (find_free_spec _ Hblk) as [[Hm _]|(Hrange & _)]; [lia|].
  rewrite <- Hk in Hrange. split; [done|].
  rewrite ialloc_bitmap_after, bit_of_set_free by
    (done || rewrite ?Hblk, ?BLOCK_SIZE_nat; lia).
  by rewrite decide_True.
Qed.

(** ** The claims about ialloc *)

Lemma reliable_w_three_taken : reliable w_three_taken.
Proof. split; [reflexivity|vm_compute; discriminate]. Qed.

Lemma reliable_w_exhausted : reliable w_exhausted.
Proof. split; [reflexivity|vm_compute; discriminate]. Qed.

Lemma length_scratch : length scratch = Z.to_nat BLOCK_SIZE.
Proof. vm_compute. reflexivity. Qed.

(** C1: on an image that holds the bitmap block and transfers in full, ialloc
    reads the inode bitmap block, returns what find_free finds in it, and when
    that is a bit index it is the lowest free bit, the block is written back
    with exactly that bit set (one read then one write of the bitmap block,
    both complete, before ialloc returns), and the index is the result. *)
Theorem ialloc_four_steps (buf : list Z) (w : world) :
  reliable w -> length buf = Z.to_nat BLOCK_SIZE ->
  let blk := block_of (image w) FREE_INODE_BLOCK_NUM in
  let k := (ialloc buf w).1 in
  let w' := (ialloc buf w).2 in
  k = find_free blk /\
  (k <> -1 ->
   (0 <= k < 8 * BLOCK_SIZE /\ bit_of blk k = false /\
    forall j, 0 <= j < k -> bit_of blk j = true) /\
   image w' = list_inserts (Z.to_nat bitmap_pos) (set_free blk k 1) (image w) /\
   block_of (image w') FREE_INODE_BLOCK_NUM = set_free blk k 1 /\
   bit_of (block_of (image w') FREE_INODE_BLOCK_NUM) k = true /\
   (forall j, 0 <= j -> j <> k ->
      bit_of (block_of (image w') FREE_INODE_BLOCK_NUM) j = bit_of blk j) /\
   appended w w' [EvSeek bitmap_pos;
                  EvRead bitmap_pos BLOCK_SIZE BLOCK_SIZE;
                  EvSeek bitmap_pos;
                  EvWrite bitmap_pos BLOCK_SIZE BLOCK_SIZE]).
Proof.
  intros Hrel Hbuf blk k w'.
  pose proof (proj2 (reliable_bounds w Hrel)) as Hlen.
  pose proof (length_block_of _ _ Hlen) as Hblk. fold blk in Hblk.
  assert (Hk : k = find_free blk).
  { unfold k. rewrite ialloc_complete by done. cbv zeta. by case_decide. }
  split; [done|]. intros Hfound.
  assert (Hafter : block_of (image w') FREE_INODE_BLOCK_NUM = set_free blk k 1)
    by (by apply ialloc_bitmap_after).
  destruct (find_free_spec blk Hblk) as [[Hm _]|(Hrange & Hclear & Hlow)];
    [lia|].
  rewrite <- Hk in Hrange, Hclear, Hlow.
  assert (Hin : 0 <= k < 8 * Z.of_nat (length blk))
    by (rewrite Hblk, BLOCK_SIZE_nat; lia).
  split; [done|]. split; [|split; [done|split; [|split]]].
  - unfold w'. rewrite Hk. rewrite ialloc_complete by done. cbv zeta.
    fold blk. rewrite decide_True by lia. done.
  - rewrite Hafter, bit_of_set_free by lia. by rewrite decide_True.
  - intros j Hj Hne. rewrite Hafter, bit_of_set_free by lia.
    by rewrite decide_False.
  - unfold appended, w'. rewrite ialloc_complete by done. cbv zeta.
    fold blk. rewrite decide_True by lia. done.
Qed.

Lemma ialloc_four_steps_witness :
  (ialloc scratch w_three_taken).1 = 3 /\
  bit_of (block_of (image (ialloc scratch w_three_taken).2)
            FREE_INODE_BLOCK_NUM) 3 = true.
Proof.
  pose proof (ialloc_four_steps scratch w_three_taken
                reliable_w_three_taken length_scratch) as [Hk Hfound].
  split; [vm_compute; reflexivity|].
  apply Hfound. vm_compute. discriminate.
Defined.

(** C2: when the bitmap block on disk has no free bit, ialloc returns -1, the
    image is left as it was, and the call made one read and no write. *)
Theorem ialloc_exhausted (buf : list Z) (w : world) :
  reliable w -> length buf = Z.to_nat BLOCK_SIZE ->
  no_free_bit (block_of (image w) FREE_INODE_BLOCK_NUM) ->
  (ialloc buf w).1 = -1 /\
  image (ialloc buf w).2 = image w /\
  appended w (ialloc buf w).2
    [EvSeek bitmap_pos; EvRead bitmap_pos BLOCK_SIZE BLOCK_SIZE].
Proof.
  intros Hrel Hbuf Hfull.
  pose proof (proj2 (reliable_bounds w Hrel)) as Hlen.
  apply (find_free_minus_one _ (length_block_of _ _ Hlen)) in Hfull.
  unfold appended. rewrite ialloc_complete by done. cbv zeta.
  rewrite decide_False by lia. done.
Qed.

Lemma ialloc_exhausted_witness :
  (ialloc scratch w_exhausted).1 = -1 /\
  image (ialloc scratch w_exhausted).2 = image w_exhausted /\
  appended w_exhausted (ialloc scratch w_exhausted).2
    [EvSeek bitmap_pos; EvRead bitmap_pos BLOCK_SIZE BLOCK_SIZE].
Proof.
  apply (ialloc_exhausted scratch w_exhausted).
  - exact reliable_w_exhausted.
  - exact length_scratch.
  - apply find_free_minus_one; vm_compute; reflexivity.
Defined.

(** C3: after ialloc returned the inode number [k] on a reliable image, no
    later call of the session returns [k]: the bit was set in the bitmap
    block on disk before the call returned, and ialloc never clears a bit. *)
Theorem ialloc_never_repeats (buf : list Z) (w w' : world) (ks : list Z) :
  reliable w -> length buf = Z.to_nat BLOCK_SIZE ->
  (ialloc buf w).1 <> -1 ->
  ialloc_run (ialloc buf w).2 ks w' ->
  (ialloc buf w).1 ∉ ks.
Proof.
  intros Hrel Hbuf Hfound Hrun.
  destruct (ialloc_sets_returned_bit buf w Hrel Hbuf Hfound) as [Hrange Hset].
  eapply ialloc_run_skips_set_bit; [exact Hrun| |lia|exact Hset].
  by apply ialloc_keeps_reliable.
Qed.

Lemma ialloc_never_repeats_witness :
  (ialloc scratch w_three_taken).1 ∉
    [(ialloc scratch (ialloc scratch w_three_taken).2).1;
     (ialloc scratch
        (ialloc scratch (ialloc scratch w_three_taken).2).2).1].
Proof.
  apply (ialloc_never_repeats scratch w_three_taken
           (ialloc scratch
              (ialloc scratch (ialloc scratch w_three_taken).2).2).2).
  - exact reliable_w_three_taken.
  - exact length_scratch.
  - vm_compute. discriminate.
  - apply run_call; [exact length_scratch|].
    apply run_call; [exact length_scratch|].
    apply run_done.
Defined.

(** C9: whatever the image and the outcome of the transfers, a call of ialloc
    seeks to the inode bitmap block and reads it once; it then seeks there
    again and writes that block once when it returns an inode number, and
    makes no further call when it returns -1. No byte of the image outside
    the bitmap block changes. (ialloc takes and returns the image file only:
    the function names no other state.) *)
Theorem ialloc_frame (buf : list Z) (w : world) :
  ((exists got,
      (ialloc buf w).1 = -1 /\
      image (ialloc buf w).2 = image w /\
      appended w (ialloc buf w).2
        [EvSeek bitmap_pos; EvRead bitmap_pos BLOCK_SIZE got]) \/
   (exists got put,
      (ialloc buf w).1 <> -1 /\
      appended w (ialloc buf w).2
        [EvSeek bitmap_pos; EvRead bitmap_pos BLOCK_SIZE got;
         EvSeek bitmap_pos; EvWrite bitmap_pos BLOCK_SIZE put])) /\
  forall i : nat,
    Z.of_nat i < bitmap_pos \/ bitmap_pos + BLOCK_SIZE <= Z.of_nat i ->
    byte_at (image (ialloc buf w).2) i = byte_at (image w) i.
Proof.
  assert (Hoff : wrap_int (FREE_INODE_BLOCK_NUM * BLOCK_SIZE) = bitmap_pos)
    by reflexivity.
  assert (Htarget : forall w0, seek_target FREE_INODE_BLOCK_NUM w0 = bitmap_pos).
  { intros w0. unfold seek_target. rewrite Hoff. by rewrite decide_False. }
  unfold ialloc, appended.
  destruct (bread_trace FREE_INODE_BLOCK_NUM buf w) as [got Hread].
  pose proof (bread_image FREE_INODE_BLOCK_NUM buf w) as Himg.
  destruct (bread FREE_INODE_BLOCK_NUM buf w) as [blk w1].
  cbn [fst snd] in *. rewrite Hoff, Htarget in Hread.
  case_decide as Hfound; cbn [fst snd].
  - destruct (bwrite_trace FREE_INODE_BLOCK_NUM
                (set_free blk (find_free blk) 1) w1) as [put Hwrite].
    rewrite Hoff, Htarget, Hread, <- app_assoc in Hwrite. split.
    + right. exists got, put. done.
    + intros i Hi. rewrite <- Himg. apply bwrite_outside.
      rewrite Htarget. unfold bitmap_pos, FREE_INODE_BLOCK_NUM, BLOCK_SIZE in *.
      lia.
  - split; [|by rewrite Himg].
    left. exists got. split; [lia|done].
Qed.

(** C10: the value ialloc returns is what the scan of the block just read
    returns: it is -1 exactly when that block has no free bit, and otherwise
    the index, between 0 and 8 * BLOCK_SIZE - 1, of a free bit of it. On a
    reliable image the block scanned is the bitmap block on disk. *)
Theorem ialloc_not_found_is_minus_one (buf : list Z) (w : world) :
  length buf = Z.to_nat BLOCK_SIZE ->
  let scanned := (bread FREE_INODE_BLOCK_NUM buf w).1 in
  ((ialloc buf w).1 = -1 <-> no_free_bit scanned) /\
  ((ialloc buf w).1 <> -1 ->
   0 <= (ialloc buf w).1 < 8 * BLOCK_SIZE /\
   bit_of scanned (ialloc buf w).1 = false) /\
  (reliable w -> scanned = block_of (image w) FREE_INODE_BLOCK_NUM).
Proof.
  intros Hbuf scanned.
  assert (Hlen : length scanned = Z.to_nat BLOCK_SIZE)
    by (unfold scanned; by rewrite length_bread).
  rewrite ialloc_result. fold scanned.
  split; [by apply find_free_minus_one|]. split.
  - intros Hfound.
    destruct (find_free_spec scanned Hlen) as [[Hm _]|(Hrange & Hclear & _)];
      [lia|done].
  - intros Hrel. apply reliable_bounds in Hrel as [Hpend Hblk].
    unfold scanned. rewrite bread_complete; try done.
Qed.

Lemma ialloc_not_found_is_minus_one_witness :
  ((ialloc scratch w_exhausted).1 = -1 <->
   no_free_bit (bread FREE_INODE_BLOCK_NUM scratch w_exhausted).1) /\
  0 <= (ialloc scratch w_three_taken).1 < 8 * BLOCK_SIZE.
Proof.
  split.
  - apply (ialloc_not_found_is_minus_one scratch w_exhausted length_scratch).
  - apply (ialloc_not_found_is_minus_one scratch w_three_taken length_scratch).
    vm_compute. discriminate.
Defined.

Lemma ialloc_frame_witness :
  byte_at (image (ialloc scratch w_short).2) 0 = byte_at (image w_short) 0.
Proof.
  apply (ialloc_frame scratch w_short). left. vm_compute. reflexivity.
Defined.

(** ** The claim about failed transfers *)

Lemma bread_same_buffer_not_surfaced
  (b : Z) (buf : list Z) (w_ok w_bad : world) :
  bread_transfer b buf w_ok = BLOCK_SIZE ->
  bread_transfer b buf w_bad <> BLOCK_SIZE ->
  (bread b buf w_bad).1 = (bread b buf w_ok).1 ->
  ~ bread_surfaces_failure.
Proof.
  intros Hok Hbad Hsame [detect Hdetect].
  pose proof (proj2 (Hdetect b buf w_bad) Hbad) as Hyes.
  rewrite Hsame in Hyes.
  apply (proj1 (Hdetect b buf w_ok) Hyes). exact Hok.
Qed.

Lemma bwrite_nothing_returned_not_surfaced
  (b : Z) (blk : list Z) (w_ok w_bad : world) :
  bwrite_transfer b blk w_ok = BLOCK_SIZE ->
  bwrite_transfer b blk w_bad <> BLOCK_SIZE ->
  ~ bwrite_surfaces_failure.
Proof.
  intros Hok Hbad [detect Hdetect].
  pose proof (proj2 (Hdetect b blk w_bad) Hbad) as Hyes.
  apply (proj1 (Hdetect b blk w_ok) Hyes). exact Hok.
Qed.

(** C8, as stated, fails: bread hands back the same buffer after a failed
    read of block 0 as after a complete one, so nothing the caller holds
    tells the two apart; bwrite hands back nothing at all. *)
Lemma bread_bwrite_failure_not_surfaced :
  (bread_transfer 0 zero_block w_three_taken = BLOCK_SIZE /\
   bread_transfer 0 zero_block w_failing = -1 /\
   (bread 0 zero_block w_failing).1 = (bread 0 zero_block w_three_taken).1) /\
  (bwrite_transfer 0 zero_block w_three_taken = BLOCK_SIZE /\
   bwrite_transfer 0 zero_block w_failing = -1) /\
  ~ bread_surfaces_failure /\ ~ bwrite_surfaces_failure.
Proof.
  split; [|split; [|split]].
  - split; [|split]; vm_compute; reflexivity.
  - split; vm_compute; reflexivity.
  - apply (bread_same_buffer_not_surfaced 0 zero_block w_three_taken w_failing).
    + vm_compute; reflexivity.
    + vm_compute; discriminate.
    + vm_compute; reflexivity.
  - apply (bwrite_nothing_returned_not_surfaced
             0 zero_block w_three_taken w_failing).
    + vm_compute; reflexivity.
    + vm_compute; discriminate.
Qed.

(** The log of bread and of bwrite, and the part of the caller's buffer a
    read leaves alone. *)
Lemma bread_bwrite_log_and_tail
  (block_num : Z) (block : list Z) (w : world) :
  (appended w (bread block_num block w).2
     [EvSeek (wrap_int (block_num * BLOCK_SIZE));
      EvRead (seek_target block_num w) BLOCK_SIZE
        (bread_transfer block_num block w)] /\
   image (bread block_num block w).2 = image w /\
   length (bread block_num block w).1 = length block /\
   (bread_transfer block_num block w = -1 ->
    (bread block_num block w).1 = block) /\
   (forall i : nat,
      bread_transfer block_num block w <= Z.of_nat i ->
      byte_at (bread block_num block w).1 i = byte_at block i)) /\
  (appended w (bwrite block_num block w)
     [EvSeek (wrap_int (block_num * BLOCK_SIZE));
      EvWrite (seek_target block_num w) BLOCK_SIZE
        (bwrite_transfer block_num block w)] /\
   (bwrite_transfer block_num block w = -1 ->
    image (bwrite block_num block w) = image w)).
Proof.
  unfold appended, bread, bwrite, bread_transfer, bwrite_transfer, seek_target,
    lseek, read, write, next_outcome.
  destruct (pending w) as [|o rest]; [set (o := Complete)|];
    case_decide; cbn [image file_pos pending trace fst snd];
    destruct (granted o BLOCK_SIZE) as [k|];
    cbn [image file_pos pending trace fst snd];
    rewrite <- ?app_assoc, ?length_inserts;
    (split; [split; [done|split; [done|split; [done|split]]]|split; [done|]]);
    try done; try (intros; lia);
    try (intros i Hi; apply byte_at_inserts_outside; lia).
Qed.

Lemma take_length_again (k : nat) (l : list Z) :
  take (length (take k l)) l = take k l.
Proof.
  rewrite length_take. destruct (decide (k <= length l)%nat).
  - by replace (k `min` length l)%nat with k by lia.
  - replace (k `min` length l)%nat with (length l) by lia.
    rewrite firstn_all. symmetry. apply take_ge. lia.
Qed.

Lemma read_at_length_again (pos k : nat) (l : list Z) :
  read_at pos (length (read_at pos k l)) l = read_at pos k l.
Proof. unfold read_at. apply take_length_again. Qed.

(** What a read that did not fail leaves in the caller's buffer: the bytes
    of the image from the position of the transfer, as many as were
    transferred, at the start of the buffer. *)
Lemma bread_copies_what_was_read
  (block_num : Z) (block : list Z) (w : world) :
  (bread_transfer block_num block w = -1 \/
   0 <= bread_transfer block_num block w <= BLOCK_SIZE) /\
  (bread_transfer block_num block w <> -1 ->
   (bread block_num block w).1 =
   list_inserts 0
     (read_at (Z.to_nat (seek_target block_num w))
        (Z.to_nat (bread_transfer block_num block w)) (image w))
     block).
Proof.
  pose proof BLOCK_SIZE_nat as Hbs.
  unfold bread, bread_transfer, seek_target, lseek, read, next_outcome.
  destruct (pending w) as [|o rest]; [set (o := Complete)|];
    case_decide; cbn [image file_pos pending trace fst snd];
    (destruct (granted o BLOCK_SIZE) as [k|] eqn:Hg;
     cbn [image file_pos pending trace fst snd];
     [apply granted_le in Hg|split; [by left|done]]);
    (split;
     [right; rewrite length_read_at; lia
     |intros _; by rewrite Nat2Z.id, read_at_length_again]).
Qed.

(** The bytes a read transferred are bytes of the image. *)
Lemma bread_transfer_in_image
  (block_num : Z) (block : list Z) (w : world) :
  bread_transfer block_num block w <> -1 ->
  length (read_at (Z.to_nat (seek_target block_num w))
            (Z.to_nat (bread_transfer block_num block w)) (image w)) =
  Z.to_nat (bread_transfer block_num block w).
Proof.
  unfold bread_transfer, seek_target, lseek, read, next_outcome.
  destruct (pending w) as [|o rest]; [set (o := Complete)|];
    case_decide; cbn [image file_pos pending trace fst snd];
    (destruct (granted o BLOCK_SIZE) as [k|];
     cbn [image file_pos pending trace fst snd]; [intros _|done]);
    by rewrite Nat2Z.id, read_at_length_again.
Qed.

(** What a write that did not fail leaves in the image: the bytes of the
    buffer, as many as were transferred, at the position of the transfer. *)
Lemma bwrite_stores_what_was_written
  (block_num : Z) (block : list Z) (w : world) :
  (bwrite_transfer block_num block w = -1 \/
   0 <= bwrite_transfer block_num block w <= BLOCK_SIZE) /\
  (bwrite_transfer block_num block w <> -1 ->
   image (bwrite block_num block w) =
   write_at (Z.to_nat (seek_target block_num w))
     (take (Z.to_nat (bwrite_transfer block_num block w)) block) (image w)).
Proof.
  pose proof BLOCK_SIZE_nat as Hbs.
  unfold bwrite, bwrite_transfer, seek_target, lseek, write, next_outcome.
  destruct (pending w) as [|o rest]; [set (o := Complete)|];
    case_decide; cbn [image file_pos pending trace fst snd];
    (destruct (granted o BLOCK_SIZE) as [k|] eqn:Hg;
     cbn [image file_pos pending trace fst snd];
     [apply granted_le in Hg|split; [by left|done]]);
    (split;
     [right; rewrite length_take; lia
     |intros _; by rewrite Nat2Z.id, take_length_again]).
Qed.

Lemma seek_target_valid (b : Z) (w : world) :
  valid_block b -> seek_target b w = b * BLOCK_SIZE.
Proof.
  intros [Hb Hmax].
  assert (0 <= b * BLOCK_SIZE) by (unfold BLOCK_SIZE; lia).
  unfold seek_target. rewrite wrap_int_small by lia.
  by rewrite decide_False by lia.
Qed.

(** C8, amended: bread and bwrite make one lseek and one transfer of
    BLOCK_SIZE bytes and drop the result of the transfer: there is no second
    attempt and no error value. bread returns the caller's buffer with the
    bytes actually read from the image at its start and the caller's own
    bytes after them (the buffer as it was when the read failed); bwrite
    stores the bytes actually written at the position of the transfer, and a
    failed write leaves the image as it was. For a valid block number the
    position of the transfer is block_num * BLOCK_SIZE. *)
Theorem bread_bwrite_drop_transfer_result
  (block_num : Z) (block : list Z) (w : world) :
  (appended w (bread block_num block w).2
     [EvSeek (wrap_int (block_num * BLOCK_SIZE));
      EvRead (seek_target block_num w) BLOCK_SIZE
        (bread_transfer block_num block w)] /\
   image (bread block_num block w).2 = image w /\
   length (bread block_num block w).1 = length block /\
   (bread_transfer block_num block w = -1 ->
    (bread block_num block w).1 = block) /\
   (forall i : nat,
      bread_transfer block_num block w <= Z.of_nat i ->
      byte_at (bread block_num block w).1 i = byte_at block i) /\
   (bread_transfer block_num block w = -1 \/
    0 <= bread_transfer block_num block w <= BLOCK_SIZE) /\
   (bread_transfer block_num block w <> -1 ->
    (bread block_num block w).1 =
    list_inserts 0
      (read_at (Z.to_nat (seek_target block_num w))
         (Z.to_nat (bread_transfer block_num block w)) (image w))
      block) /\
   (forall i : nat,
      Z.of_nat i < bread_transfer block_num block w ->
      (i < length block)%nat ->
      byte_at (bread block_num block w).1 i =
      byte_at (image w) (Z.to_nat (seek_target block_num w) + i))) /\
  (appended w (bwrite block_num block w)
     [EvSeek (wrap_int (block_num * BLOCK_SIZE));
      EvWrite (seek_target block_num w) BLOCK_SIZE
        (bwrite_transfer block_num block w)] /\
   (bwrite_transfer block_num block w = -1 ->
    image (bwrite block_num block w) = image w) /\
   (bwrite_transfer block_num block w = -1 \/
    0 <= bwrite_transfer block_num block w <= BLOCK_SIZE) /\
   (bwrite_transfer block_num block w <> -1 ->
    image (bwrite block_num block w) =
    write_at (Z.to_nat (seek_target block_num w))
      (take (Z.to_nat (bwrite_transfer block_num block w)) block)
      (image w))) /\
  (valid_block block_num ->
   seek_target block_num w = block_num * BLOCK_SIZE).
Proof.
  destruct (bread_bwrite_log_and_tail block_num block w)
    as ((Hrlog & Hrimg & Hrlen & Hrfail & Hrtail) & Hwlog & Hwfail).
  destruct (bread_copies_what_was_read block_num block w) as [Hrrange Hrbuf].
  destruct (bwrite_stores_what_was_written block_num block w)
    as [Hwrange Hwimg].
  split; [|split]; [repeat (split; [assumption|])
                   |repeat (split; [assumption|]); assumption
                   |apply seek_target_valid].
  intros i Hi Hin.
  rewrite Hrbuf by lia.
  pose proof (bread_transfer_in_image block_num block w ltac:(lia)) as Hlen.
  set (data := read_at (Z.to_nat (seek_target block_num w))
                 (Z.to_nat (bread_transfer block_num block w)) (image w)).
  assert (Hdata : byte_at data i =
                  byte_at (image w) (Z.to_nat (seek_target block_num w) + i)).
  { unfold data, byte_at. rewrite lookup_read_at.
    by rewrite decide_True by lia. }
  rewrite <- Hdata. unfold byte_at.
  rewrite lookup_list_inserts.
  destruct (decide ((0 <= i < 0 + length data)%nat /\ (i < length block)%nat))
    as [_|Hout].
  - by rewrite Nat.sub_0_r.
  - exfalso. fold data in Hlen. lia.
Qed.

Lemma bread_bwrite_drop_transfer_result_witness :
  (bread 0 zero_block w_failing).1 = zero_block /\
  byte_at (bread 0 scratch w_short).1 100 = byte_at scratch 100 /\
  (bread 1 scratch w_short).1 =
  list_inserts 0
    (read_at (Z.to_nat (seek_target 1 w_short))
       (Z.to_nat (bread_transfer 1 scratch w_short)) (image w_short))
    scratch /\
  byte_at (bread 1 scratch w_short).1 0 =
  byte_at (image w_short) (Z.to_nat (seek_target 1 w_short) + 0) /\
  image (bwrite 0 scratch w_failing) = image w_failing /\
  image (bwrite 1 scratch w_short) =
  write_at (Z.to_nat (seek_target 1 w_short))
    (take (Z.to_nat (bwrite_transfer 1 scratch w_short)) scratch)
    (image w_short) /\
  seek_target 1 w_short = 1 * BLOCK_SIZE.
Proof.
  destruct (bread_bwrite_drop_transfer_result 0 zero_block w_failing)
    as ((_ & _ & _ & Hfailed & _) & _ & _).
  destruct (bread_bwrite_drop_transfer_result 0 scratch w_short)
    as ((_ & _ & _ & _ & Htail & _) & _ & _).
  destruct (bread_bwrite_drop_transfer_result 1 scratch w_short)
    as ((_ & _ & _ & _ & _ & _ & Hbuf & Hhead) &
        (_ & _ & _ & Hstored) & Htarget).
  destruct (bread_bwrite_drop_transfer_result 0 scratch w_failing)
    as (_ & (_ & Hwfailed & _) & _).
  split; [|split; [|split; [|split; [|split; [|split]]]]].
  - apply Hfailed. vm_compute. reflexivity.
  - apply Htail. vm_compute. discriminate.
  - apply Hbuf. vm_compute. discriminate.
  - apply Hhead.
    + vm_compute. reflexivity.
    + rewrite length_scratch. unfold BLOCK_SIZE. lia.
  - apply Hwfailed. vm_compute. reflexivity.
  - apply Hstored. vm_compute. discriminate.
  - apply Htarget. split; vm_compute; [discriminate|reflexivity].
Defined.

(** ** The byte accessors *)

Lemma length_le_bytes (n : nat) : forall v, length (le_bytes n v) = n.
Proof. induction n as [|m IH]; intros v; simpl; [done|by rewrite IH]. Qed.

Lemma le_value_le_bytes (n : nat) : forall v,
  le_value (le_bytes n v) = v `mod` 2 ^ (8 * Z.of_nat n).
Proof.
  induction n as [|m IH]; intros v.
  - simpl. by rewrite Z.mod_1_r.
  - cbn [le_bytes le_value]. rewrite IH.
    replace (8 * Z.of_nat (S m)) with (8 + 8 * Z.of_nat m) by lia.
    rewrite Z.pow_add_r by lia. change (2 ^ 8) with 256.
    rewrite Z.rem_mul_r by lia. done.
Qed.

Lemma length_uint_bytes (order : byte_order) (n : nat) (v : Z) :
  length (uint_bytes order n v) = n.
Proof.
  destruct order; simpl; rewrite ?length_reverse; apply length_le_bytes.
Qed.

Lemma uint_value_bytes (order : byte_order) (n : nat) (v : Z) :
  uint_value order (uint_bytes order n v) = v `mod` 2 ^ (8 * Z.of_nat n).
Proof.
  destruct order; simpl; rewrite ?reverse_involutive; apply le_value_le_bytes.
Qed.

Lemma read_at_inserts_other (l d : list Z) (pos pos' n : nat) :
  (pos' + n <= pos \/ pos + length d <= pos')%nat ->
  read_at pos' n (list_inserts pos d l) = read_at pos' n l.
Proof.
  intros Hdis. apply list_eq. intros i. rewrite !lookup_read_at.
  case_decide; [|done].
  rewrite lookup_list_inserts. by rewrite decide_False by lia.
Qed.

Section Accessors.

Variable order : byte_order.

Lemma length_write_uint (n : nat) (block : list Z) (addr v : Z) :
  length (write_uint order n block addr v) = length block.
Proof. unfold write_uint. apply length_inserts. Qed.

Lemma read_write_same (n : nat) (block : list Z) (addr v : Z) :
  0 <= addr -> addr + Z.of_nat n <= Z.of_nat (length block) ->
  read_uint order n (write_uint order n block addr v) addr =
  v `mod` 2 ^ (8 * Z.of_nat n).
Proof.
  intros Ha Hlen. unfold read_uint, write_uint.
  rewrite <- (length_uint_bytes order n v) at 1.
  rewrite read_at_inserts_same by (rewrite length_uint_bytes; lia).
  apply uint_value_bytes.
Qed.

Lemma read_write_other (n m : nat) (block : list Z) (addr addr' v : Z) :
  0 <= addr -> 0 <= addr' ->
  addr + Z.of_nat n <= addr' \/ addr' + Z.of_nat m <= addr ->
  read_uint order n (write_uint order m block addr' v) addr =
  read_uint order n block addr.
Proof.
  intros Ha Ha' Hdis. unfold read_uint, write_uint.
  rewrite read_at_inserts_other; [done|].
  rewrite length_uint_bytes. lia.
Qed.

Lemma byte_at_write_uint_outside
  (m : nat) (block : list Z) (addr v : Z) (i : nat) :
  0 <= addr ->
  Z.of_nat i < addr \/ addr + Z.of_nat m <= Z.of_nat i ->
  byte_at (write_uint order m block addr v) i = byte_at block i.
Proof.
  intros Ha Hi. unfold write_uint. apply byte_at_inserts_outside.
  rewrite length_uint_bytes. lia.
Qed.

Lemma length_write_block_ptrs (ptrs : list Z) : forall block addr,
  length (write_block_ptrs order block addr ptrs) = length block.
Proof.
  induction ptrs as [|p rest IH]; intros block addr; simpl; [done|].
  rewrite IH. apply length_write_uint.
Qed.

Lemma read_write_block_ptrs_before (n : nat) (ptrs : list Z) :
  forall block addr addr',
    0 <= addr -> addr + Z.of_nat n <= addr' ->
    read_uint order n (write_block_ptrs order block addr' ptrs) addr =
    read_uint order n block addr.
Proof.
  induction ptrs as [|p rest IH]; intros block addr addr' Ha Hlt; simpl;
    [done|].
  rewrite IH by lia. unfold write_u16. apply read_write_other; lia.
Qed.

Lemma byte_at_write_block_ptrs_outside (ptrs : list Z) (i : nat) :
  forall block addr,
    0 <= addr ->
    Z.of_nat i < addr \/ addr + 2 * Z.of_nat (length ptrs) <= Z.of_nat i ->
    byte_at (write_block_ptrs order block addr ptrs) i = byte_at block i.
Proof.
  induction ptrs as [|p rest IH]; intros block addr Ha Hi; [done|].
  cbn [write_block_ptrs length] in *.
  rewrite IH by lia. unfold write_u16.
  apply byte_at_write_uint_outside; lia.
Qed.

(** Reading the pointer slots back, in order, gives the pointers written. *)
Lemma read_block_ptrs_written (ptrs : list Z) : forall block addr,
  0 <= addr ->
  addr + 2 * Z.of_nat (length ptrs) <= Z.of_nat (length block) ->
  Forall (fun p => 0 <= p < 2 ^ 16) ptrs ->
  List.map (fun i => read_u16 order (write_block_ptrs order block addr ptrs)
                       (addr + 2 * Z.of_nat i))
           (seq 0 (length ptrs)) = ptrs.
Proof.
  induction ptrs as [|p rest IH]; intros block addr Ha Hlen Hrange; [done|].
  cbn [length] in *. apply Forall_cons in Hrange as [Hp Hrest].
  cbn [seq List.map write_block_ptrs]. f_equal.
  - unfold read_u16, write_u16.
    rewrite read_write_block_ptrs_before by lia.
    replace (addr + 2 * Z.of_nat 0) with addr by lia.
    rewrite read_write_same by lia.
    apply Z.mod_small. change (8 * Z.of_nat 2) with 16. lia.
  - rewrite <- List.seq_shift, List.map_map.
    rewrite <- (IH (write_u16 order block addr p) (addr + 2)) at 2;
      [|lia|unfold write_u16; rewrite length_write_uint; lia|done].
    apply List.map_ext. intros i. f_equal. lia.
Qed.

End Accessors.

(** ** The inode codec *)

Lemma INODES_PER_BLOCK_value : INODES_PER_BLOCK = 64.
Proof. reflexivity. Qed.

Lemma locate_nonneg (n : Z) :
  0 <= n ->
  locate n = (n `div` 64 + INODE_FIRST_BLOCK, n `mod` 64 * 64).
Proof.
  intros Hn. unfold locate. rewrite INODES_PER_BLOCK_value.
  rewrite Z.quot_div_nonneg, Z.rem_mod_nonneg by lia. done.
Qed.

Lemma locate_offset_bounds (n : Z) :
  0 <= n -> 0 <= (locate n).2 <= BLOCK_SIZE - INODE_SIZE.
Proof.
  intros Hn. rewrite locate_nonneg by done. cbn [snd].
  pose proof (Z.mod_pos_bound n 64 ltac:(lia)).
  unfold BLOCK_SIZE, INODE_SIZE. lia.
Qed.

(** C4: for an inode number n >= 0, locate gives block n / 64 + the first
    inode block and byte offset (n mod 64) * 64, with 64 = 4096 / 64 inodes
    per block; the record lies inside the block. *)
Theorem locate_formula (n : Z) :
  0 <= n ->
  INODES_PER_BLOCK = BLOCK_SIZE `div` INODE_SIZE /\ INODES_PER_BLOCK = 64 /\
  (locate n).1 = n `div` INODES_PER_BLOCK + INODE_FIRST_BLOCK /\
  (locate n).2 = n `mod` INODES_PER_BLOCK * 64 /\
  0 <= (locate n).2 /\ (locate n).2 + INODE_SIZE <= BLOCK_SIZE.
Proof.
  intros Hn. pose proof (locate_offset_bounds n Hn) as Hoff.
  rewrite locate_nonneg in * by done. rewrite INODES_PER_BLOCK_value.
  cbn [fst snd] in *.
  split; [reflexivity|]. repeat split; try done; lia.
Qed.

Lemma locate_formula_witness :
  (locate 130).1 = 130 `div` INODES_PER_BLOCK + INODE_FIRST_BLOCK /\
  (locate 130).2 = 130 `mod` INODES_PER_BLOCK * 64.
Proof.
  pose proof (locate_formula 130 ltac:(lia)) as (_ & _ & Hblk & Hoff & _).
  split; assumption.
Defined.

(** Two inode numbers with the same block and offset are the same number. *)
Lemma locate_injective (n m : Z) :
  0 <= n -> 0 <= m -> locate n = locate m -> n = m.
Proof.
  intros Hn Hm. rewrite !locate_nonneg by done. intros [= Hdiv Hmod].
  rewrite (Z.div_mod n 64), (Z.div_mod m 64) by lia. lia.
Qed.

Section CodecProperties.

Variable order : byte_order.

Ltac read_back :=
  unfold read_u8, read_u16, read_u32, write_u8, write_u16, write_u32;
  rewrite ?read_write_block_ptrs_before by lia;
  repeat (rewrite read_write_other by lia);
  rewrite read_write_same by (rewrite ?length_write_uint; lia);
  apply Z.mod_small.

Lemma decode_encode (block : list Z) (off : Z) (s : inode) :
  0 <= off -> off + INODE_FIELD_BYTES <= Z.of_nat (length block) ->
  inode_wf s ->
  same_on_disk (decode order (encode order block off s) off) s.
Proof.
  intros Hoff Hlen (Hsize & Howner & Hperm & Hflags & Hlinks & Hn & Hptrs).
  unfold same_on_disk, decode, encode. cbn [size owner_id permissions flags
    link_count block_ptr].
  unfold INODE_FIELD_BYTES, INODE_PTR_COUNT in *.
  rewrite firstn_all2 by lia.
  split; [|split; [|split; [|split; [|split]]]].
  - read_back. change (2 ^ (8 * Z.of_nat 4)) with (2 ^ 32). lia.
  - read_back. change (2 ^ (8 * Z.of_nat 2)) with (2 ^ 16). lia.
  - read_back. change (2 ^ (8 * Z.of_nat 1)) with (2 ^ 8). lia.
  - read_back. change (2 ^ (8 * Z.of_nat 1)) with (2 ^ 8). lia.
  - read_back. change (2 ^ (8 * Z.of_nat 1)) with (2 ^ 8). lia.
  - rewrite <- Hn at 1.
    apply read_block_ptrs_written; [lia| |done].
    unfold write_u8, write_u16, write_u32.
    rewrite !length_write_uint. lia.
Qed.

Lemma length_encode (block : list Z) (off : Z) (s : inode) :
  length (encode order block off s) = length block.
Proof.
  unfold encode, write_u8, write_u16, write_u32.
  by rewrite length_write_block_ptrs, !length_write_uint.
Qed.

Lemma encode_outside (block : list Z) (off : Z) (s : inode) (i : nat) :
  0 <= off ->
  Z.of_nat i < off \/ off + INODE_FIELD_BYTES <= Z.of_nat i ->
  byte_at (encode order block off s) i = byte_at block i.
Proof.
  intros Hoff Hi. unfold INODE_FIELD_BYTES, INODE_PTR_COUNT in Hi.
  unfold encode, write_u8, write_u16, write_u32.
  rewrite byte_at_write_block_ptrs_outside.
  - rewrite !byte_at_write_uint_outside by lia. done.
  - lia.
  - rewrite length_take. unfold INODE_PTR_COUNT. lia.
Qed.

End CodecProperties.

(** C5: for an inode number n >= 0, a block buffer and a record whose fields
    hold values of their C types, decoding at the offset locate gives what was
    encoded there returns the on-disk fields of the record, in either byte
    order. The encoding does not depend on the reference count or the inode
    number, and changes no byte of the buffer outside the 41 bytes of the
    fields. *)
Theorem inode_round_trip
  (order : byte_order) (n : Z) (block : list Z) (s : inode) :
  0 <= n -> length block = Z.to_nat BLOCK_SIZE -> inode_wf s ->
  let off := (locate n).2 in
  same_on_disk (decode order (encode order block off s) off) s /\
  (forall r m,
     encode order block off (with_ref_count r (with_inode_num m s)) =
     encode order block off s) /\
  length (encode order block off s) = length block /\
  (forall i : nat,
     Z.of_nat i < off \/ off + INODE_FIELD_BYTES <= Z.of_nat i ->
     byte_at (encode order block off s) i = byte_at block i).
Proof.
  intros Hn Hlen Hwf off.
  pose proof (locate_offset_bounds n Hn) as Hoff. fold off in Hoff.
  assert (Hfit : off + INODE_FIELD_BYTES <= Z.of_nat (length block)).
  { rewrite Hlen, BLOCK_SIZE_nat.
    unfold INODE_FIELD_BYTES, INODE_PTR_COUNT, BLOCK_SIZE, INODE_SIZE in *.
    lia. }
  split; [apply decode_encode; [lia|done|done]|].
  split; [done|].
  split; [apply length_encode|].
  intros i Hi. apply encode_outside; [lia|done].
Qed.

Lemma sample_inode_wf : inode_wf sample_inode.
Proof.
  unfold inode_wf, sample_inode. cbn [size owner_id permissions flags
    link_count block_ptr].
  repeat split; try lia; try reflexivity.
  apply Forall_forall. intros p Hp.
  apply list_elem_of_In, List.in_map_iff in Hp as (i & <- & Hi).
  apply List.in_seq in Hi. lia.
Qed.

Lemma inode_round_trip_witness :
  same_on_disk
    (decode BigEndian
       (encode BigEndian scratch (locate 130).2 sample_inode) (locate 130).2)
    sample_inode.
Proof.
  apply (inode_round_trip BigEndian 130 scratch sample_inode).
  - lia.
  - exact length_scratch.
  - exact sample_inode_wf.
Defined.

(** ** The in-core cache *)






Section Cache.

Variable order : byte_order.



End Cache.







(** C7: iput on a slot whose reference count is 0 returns the state it was
    given: the count stays 0, every slot and the disk (image and log of
    calls) are as before, and there is no error result. *)
Theorem iput_free_slot_is_noop
  (order : byte_order) (h : nat) (st : fs) (s : inode) :
  incore st !! h = Some s -> ref_count s = 0%N ->
  iput order h st = st /\
  ref_count <$> incore (iput order h st) !! h = Some 0%N /\
  trace (disk (iput order h st)) = trace (disk st).
Proof.
  intros Hs Hzero.
  assert (Hnoop : iput order h st = st).
  { unfold iput. rewrite Hs. by rewrite decide_True. }
  rewrite Hnoop, Hs. cbn. by rewrite Hzero.
Qed.

Lemma iput_free_slot_is_noop_witness :
  iput BigEndian 3 st_fresh = st_fresh.
Proof.
  apply (iput_free_slot_is_noop BigEndian 3 st_fresh zero_inode);
    reflexivity.
Defined.


(** * Further properties of block.c and of ialloc *)

(** ** Files as lists *)

Lemma wrap_int_in_range (x : Z) : - 2 ^ 31 <= x < 2 ^ 31 -> wrap_int x = x.
Proof.
  intros Hx. unfold wrap_int.
  rewrite Z.mod_small; lia.
Qed.

Lemma list_eq_byte_at (l1 l2 : list Z) :
  length l1 = length l2 ->
  (forall i, byte_at l1 i = byte_at l2 i) ->
  l1 = l2.
Proof.
  intros Hlen Hbytes. apply list_eq. intros i.
  specialize (Hbytes i). unfold byte_at in Hbytes.
  destruct (l1 !! i) as [a|] eqn:H1, (l2 !! i) as [b|] eqn:H2.
  - simpl in Hbytes. by subst.
  - apply lookup_lt_Some in H1. apply lookup_ge_None in H2. lia.
  - apply lookup_ge_None in H1. apply lookup_lt_Some in H2. lia.
  - done.
Qed.

Lemma byte_at_write_at (pos : nat) (d img : list Z) (i : nat) :
  byte_at (write_at pos d img) i =
  if decide (pos <= i < pos + length d)%nat
  then byte_at d (i - pos) else byte_at img i.
Proof.
  case_decide as Hin.
  - unfold write_at, byte_at. rewrite lookup_list_inserts.
    rewrite decide_True; [done|].
    rewrite length_app, length_replicate. lia.
  - apply byte_at_write_at_outside. lia.
Qed.

Lemma byte_at_read_at (pos n : nat) (l : list Z) (i : nat) :
  byte_at (read_at pos n l) i =
  if decide (i < n)%nat then byte_at l (pos + i) else 0.
Proof. unfold byte_at. rewrite lookup_read_at. by case_decide. Qed.

Lemma byte_at_ge (l : list Z) (i : nat) :
  (length l <= i)%nat -> byte_at l i = 0.
Proof.
  intros Hi. unfold byte_at. by rewrite (proj2 (lookup_ge_None l i)).
Qed.

(** Writing back what was read at the same place changes nothing. *)
Lemma write_at_read_at (pos n : nat) (l : list Z) :
  (pos + n <= length l)%nat ->
  write_at pos (read_at pos n l) l = l.
Proof.
  intros Hlen.
  assert (Hn : length (read_at pos n l) = n) by (rewrite length_read_at; lia).
  apply list_eq_byte_at.
  - rewrite length_write_at, Hn. lia.
  - intros i. rewrite byte_at_write_at, Hn. case_decide; [|done].
    rewrite byte_at_read_at, decide_True by lia. f_equal. lia.
Qed.

Lemma write_at_twice (pos : nat) (d1 d2 img : list Z) :
  length d1 = length d2 ->
  write_at pos d2 (write_at pos d1 img) = write_at pos d2 img.
Proof.
  intros Hlen. apply list_eq_byte_at.
  - rewrite !length_write_at. lia.
  - intros i. rewrite !byte_at_write_at. case_decide; [done|].
    rewrite decide_False by lia. done.
Qed.

Lemma write_at_commute (p1 p2 : nat) (d1 d2 img : list Z) :
  (p1 + length d1 <= p2 \/ p2 + length d2 <= p1)%nat ->
  write_at p1 d1 (write_at p2 d2 img) = write_at p2 d2 (write_at p1 d1 img).
Proof.
  intros Hdis. apply list_eq_byte_at.
  - rewrite !length_write_at. lia.
  - intros i. rewrite !byte_at_write_at.
    repeat case_decide; try done; lia.
Qed.

(** ** bread and bwrite when every transfer completes *)

Lemma valid_block_offset (b : Z) :
  valid_block b ->
  wrap_int (b * BLOCK_SIZE) = b * BLOCK_SIZE /\ 0 <= b * BLOCK_SIZE.
Proof.
  intros [Hb Hmax].
  assert (0 <= b * BLOCK_SIZE) by (unfold BLOCK_SIZE; lia).
  split; [apply wrap_int_small; lia|done].
Qed.

Lemma bwrite_no_fault (b : Z) (blk : list Z) (w : world) :
  valid_block b -> pending w = [] -> length blk = Z.to_nat BLOCK_SIZE ->
  bwrite b blk w =
  mkWorld (write_at (Z.to_nat (b * BLOCK_SIZE)) blk (image w))
    (b * BLOCK_SIZE + BLOCK_SIZE) []
    (trace w ++ [EvSeek (b * BLOCK_SIZE);
                 EvWrite (b * BLOCK_SIZE) BLOCK_SIZE BLOCK_SIZE]).
Proof.
  intros Hb Hpend Hblk. apply valid_block_offset in Hb as [Hoff Hpos].
  unfold bwrite, lseek, write, next_outcome. rewrite Hoff.
  rewrite decide_False by lia. cbn [image file_pos pending trace].
  rewrite Hpend. cbn [granted].
  rewrite <- Hblk, firstn_all, Hblk, BLOCK_SIZE_nat.
  by rewrite <- app_assoc.
Qed.

Lemma bread_no_fault (b : Z) (buf : list Z) (w : world) :
  valid_block b -> pending w = [] ->
  (bread b buf w).1 = list_inserts 0 (block_of (image w) b) buf /\
  image (bread b buf w).2 = image w /\
  pending (bread b buf w).2 = [].
Proof.
  intros Hb Hpend. apply valid_block_offset in Hb as [Hoff Hpos].
  unfold bread, lseek, read, next_outcome. rewrite Hoff.
  rewrite decide_False by lia. cbn [image file_pos pending trace].
  rewrite Hpend. cbn [granted fst snd image pending]. done.
Qed.

Lemma holds_block_nat (img : list Z) (b : Z) :
  valid_block b -> holds_block img b ->
  (Z.to_nat (b * BLOCK_SIZE) + Z.to_nat BLOCK_SIZE <= length img)%nat.
Proof.
  intros Hb Hholds. apply valid_block_offset in Hb as [_ Hpos].
  unfold holds_block in Hholds. pose proof BLOCK_SIZE_nat. lia.
Qed.

(** X1: when the transfers complete, bread of a block returns the
    BLOCK_SIZE bytes the preceding bwrite stored there, whatever the image
    held and however short it was. *)
Theorem bwrite_bread_round_trip (b : Z) (blk buf : list Z) (w : world) :
  valid_block b -> pending w = [] ->
  length blk = Z.to_nat BLOCK_SIZE -> length buf = Z.to_nat BLOCK_SIZE ->
  (bread b buf (bwrite b blk w)).1 = blk.
Proof.
  intros Hb Hpend Hblk Hbuf.
  rewrite bwrite_no_fault by done.
  destruct (bread_no_fault b buf
    (mkWorld (write_at (Z.to_nat (b * BLOCK_SIZE)) blk (image w))
       (b * BLOCK_SIZE + BLOCK_SIZE) []
       (trace w ++ [EvSeek (b * BLOCK_SIZE);
                    EvWrite (b * BLOCK_SIZE) BLOCK_SIZE BLOCK_SIZE]))
    Hb eq_refl) as (Hread & _).
  rewrite Hread. cbn [image]. unfold block_of.
  rewrite <- Hblk at 1. rewrite read_at_write_at.
  apply inserts_whole. lia.
Qed.

Lemma bwrite_bread_round_trip_witness :
  (bread 2 zero_block (bwrite 2 scratch w_fresh)).1 = scratch.
Proof.
  apply (bwrite_bread_round_trip 2 scratch zero_block w_fresh).
  - split; vm_compute; [discriminate|reflexivity].
  - reflexivity.
  - exact length_scratch.
  - vm_compute. reflexivity.
Defined.

(** X2: whatever the outcome of the transfer, bwrite of a valid block changes
    no byte of the image outside that block, and the image never gets
    shorter. *)
Theorem bwrite_touches_one_block (b : Z) (blk : list Z) (w : world) (i : nat) :
  valid_block b ->
  (Z.of_nat i < b * BLOCK_SIZE \/ (b + 1) * BLOCK_SIZE <= Z.of_nat i ->
   byte_at (image (bwrite b blk w)) i = byte_at (image w) i) /\
  (length (image w) <= length (image (bwrite b blk w)))%nat.
Proof.
  intros Hb. pose proof (valid_block_offset b Hb) as [Hoff Hpos].
  assert (Htarget : seek_target b w = b * BLOCK_SIZE).
  { unfold seek_target. rewrite Hoff. by rewrite decide_False by lia. }
  split.
  - intros Hi. apply bwrite_outside. rewrite Htarget.
    pose proof BLOCK_SIZE_nat. lia.
  - unfold bwrite, lseek, write, next_outcome.
    destruct (pending w) as [|o rest]; [set (o := Complete)|];
      case_decide; cbn [image file_pos pending trace];
      (destruct (granted o BLOCK_SIZE) as [k|]; cbn [image snd]; [|done]);
      rewrite length_write_at; lia.
Qed.

Lemma bwrite_touches_one_block_witness :
  byte_at (image (bwrite 2 scratch w_short)) 4100 =
  byte_at (image w_short) 4100.
Proof.
  apply (bwrite_touches_one_block 2 scratch w_short 4100).
  - split; vm_compute; [discriminate|reflexivity].
  - left. vm_compute. reflexivity.
Defined.

(** X3: reading a block the image holds and writing the buffer back leaves
    the image as it was, when the transfers complete. *)
Theorem bread_bwrite_same_block (b : Z) (buf : list Z) (w : world) :
  valid_block b -> pending w = [] -> holds_block (image w) b ->
  length buf = Z.to_nat BLOCK_SIZE ->
  image (bwrite b (bread b buf w).1 (bread b buf w).2) = image w.
Proof.
  intros Hb Hpend Hholds Hbuf.
  pose proof (holds_block_nat _ _ Hb Hholds) as Hlen.
  destruct (bread_no_fault b buf w Hb Hpend) as (Hread & Himg & Hpend').
  assert (Hblk : (bread b buf w).1 = block_of (image w) b).
  { rewrite Hread. apply inserts_whole.
    rewrite length_block_of by done. lia. }
  rewrite bwrite_no_fault; [|done|done|].
  - cbn [image]. rewrite Himg, Hblk. unfold block_of.
    by apply write_at_read_at.
  - rewrite Hblk. by apply length_block_of.
Qed.

Lemma bread_bwrite_same_block_witness :
  image (bwrite 1 (bread 1 scratch w_three_taken).1
           (bread 1 scratch w_three_taken).2) = image w_three_taken.
Proof.
  apply (bread_bwrite_same_block 1 scratch w_three_taken).
  - split; vm_compute; [discriminate|reflexivity].
  - reflexivity.
  - vm_compute. discriminate.
  - exact length_scratch.
Defined.

(** X4: of two complete writes to the same block only the second shows in
    the image. *)
Theorem bwrite_last_write_wins (b : Z) (blk1 blk2 : list Z) (w : world) :
  valid_block b -> pending w = [] ->
  length blk1 = Z.to_nat BLOCK_SIZE -> length blk2 = Z.to_nat BLOCK_SIZE ->
  image (bwrite b blk2 (bwrite b blk1 w)) = image (bwrite b blk2 w).
Proof.
  intros Hb Hpend Hblk1 Hblk2.
  rewrite (bwrite_no_fault b blk1 w) by done.
  rewrite !bwrite_no_fault by done. cbn [image].
  apply write_at_twice. lia.
Qed.

Lemma bwrite_last_write_wins_witness :
  image (bwrite 2 scratch (bwrite 2 zero_block w_fresh)) =
  image (bwrite 2 scratch w_fresh).
Proof.
  apply (bwrite_last_write_wins 2 zero_block scratch w_fresh).
  - split; vm_compute; [discriminate|reflexivity].
  - reflexivity.
  - vm_compute. reflexivity.
  - exact length_scratch.
Defined.

(** X5: complete writes to two different blocks give the same image in
    either order. *)
Theorem bwrite_distinct_blocks_commute
  (b1 b2 : Z) (blk1 blk2 : list Z) (w : world) :
  valid_block b1 -> valid_block b2 -> b1 <> b2 -> pending w = [] ->
  length blk1 = Z.to_nat BLOCK_SIZE -> length blk2 = Z.to_nat BLOCK_SIZE ->
  image (bwrite b1 blk1 (bwrite b2 blk2 w)) =
  image (bwrite b2 blk2 (bwrite b1 blk1 w)).
Proof.
  intros Hb1 Hb2 Hne Hpend Hblk1 Hblk2.
  rewrite (bwrite_no_fault b2 blk2 w), (bwrite_no_fault b1 blk1 w) by done.
  rewrite !bwrite_no_fault by done. cbn [image].
  apply write_at_commute.
  apply valid_block_offset in Hb1 as [_ Hp1].
  apply valid_block_offset in Hb2 as [_ Hp2].
  rewrite Hblk1, Hblk2. unfold BLOCK_SIZE in *. lia.
Qed.

Lemma bwrite_distinct_blocks_commute_witness :
  image (bwrite 0 scratch (bwrite 2 zero_block w_three_taken)) =
  image (bwrite 2 zero_block (bwrite 0 scratch w_three_taken)).
Proof.
  apply (bwrite_distinct_blocks_commute 0 2 scratch zero_block w_three_taken).
  - split; vm_compute; [discriminate|reflexivity].
  - split; vm_compute; [discriminate|reflexivity].
  - discriminate.
  - reflexivity.
  - exact length_scratch.
  - vm_compute. reflexivity.
Defined.

(** X6: a negative block number is not refused. Its offset is negative, lseek
    leaves the file position where it was, and the block is written at that
    position: right after a complete bread of block [k], bwrite of a negative
    block number overwrites block [k + 1]. *)
Theorem bwrite_negative_block_number
  (b k : Z) (blk buf : list Z) (w : world) :
  - 2 ^ 31 <= b * BLOCK_SIZE -> b < 0 ->
  valid_block k -> pending w = [] -> holds_block (image w) k ->
  length blk = Z.to_nat BLOCK_SIZE ->
  block_of (image (bwrite b blk (bread k buf w).2)) (k + 1) = blk /\
  trace (bwrite b blk (bread k buf w).2) =
  trace (bread k buf w).2 ++
    [EvSeek (b * BLOCK_SIZE);
     EvWrite ((k + 1) * BLOCK_SIZE) BLOCK_SIZE BLOCK_SIZE].
Proof.
  intros Hmin Hneg Hk Hpend Hholds Hblk.
  pose proof (holds_block_nat _ _ Hk Hholds) as Hlen.
  pose proof (valid_block_offset k Hk) as [Hoff Hpos].
  assert (Hb : wrap_int (b * BLOCK_SIZE) = b * BLOCK_SIZE /\ b * BLOCK_SIZE < 0).
  { split; [apply wrap_int_in_range|]; unfold BLOCK_SIZE in *; lia. }
  destruct Hb as [Hwrap Hlt].
  assert (Hread : exists t,
    (bread k buf w).2 =
    mkWorld (image w) ((k + 1) * BLOCK_SIZE) [] t).
  { unfold bread, lseek, read, next_outcome. rewrite Hoff.
    rewrite decide_False by lia. cbn [image file_pos pending trace].
    rewrite Hpend. cbn [granted snd].
    fold (block_of (image w) k). rewrite length_block_of by done.
    rewrite BLOCK_SIZE_nat.
    replace (k * BLOCK_SIZE + BLOCK_SIZE) with ((k + 1) * BLOCK_SIZE) by lia.
    eauto. }
  destruct Hread as [t ->].
  unfold bwrite, lseek, write, next_outcome. rewrite Hwrap.
  rewrite decide_True by lia. cbn [image file_pos pending trace granted].
  rewrite <- Hblk at 1 2. rewrite firstn_all, Hblk, BLOCK_SIZE_nat.
  cbn [image trace]. split.
  - unfold block_of. rewrite <- Hblk. apply read_at_write_at.
  - by rewrite <- app_assoc.
Qed.

Lemma bwrite_negative_block_number_witness :
  block_of (image (bwrite (-1) scratch (bread 0 zero_block w_three_taken).2)) 1
  = scratch.
Proof.
  apply (bwrite_negative_block_number
           (-1) 0 scratch zero_block w_three_taken).
  - vm_compute. discriminate.
  - reflexivity.
  - split; vm_compute; [discriminate|reflexivity].
  - reflexivity.
  - vm_compute. discriminate.
  - exact length_scratch.
Defined.

(** ** ialloc over a session *)

Lemma ialloc_result_reliable (buf : list Z) (w : world) :
  reliable w -> length buf = Z.to_nat BLOCK_SIZE ->
  (ialloc buf w).1 = find_free (block_of (image w) FREE_INODE_BLOCK_NUM).
Proof.
  intros Hrel Hbuf. rewrite ialloc_complete by done. cbv zeta.
  by case_decide.
Qed.

Lemma length_bitmap_block (w : world) :
  reliable w ->
  length (block_of (image w) FREE_INODE_BLOCK_NUM) = Z.to_nat BLOCK_SIZE.
Proof.
  intros Hrel. apply length_block_of. by apply reliable_bounds.
Qed.

(** The bitmap block after a call: the returned bit set, the others as
    before. *)
Lemma ialloc_bits_after (buf : list Z) (w : world) (j : Z) :
  reliable w -> length buf = Z.to_nat BLOCK_SIZE -> 0 <= j ->
  bit_of (block_of (image (ialloc buf w).2) FREE_INODE_BLOCK_NUM) j =
  if decide (j = (ialloc buf w).1) then true
  else bit_of (block_of (image w) FREE_INODE_BLOCK_NUM) j.
Proof.
  intros Hrel Hbuf Hj.
  destruct (decide ((ialloc buf w).1 = -1)) as [Hnone|Hsome].
  - rewrite decide_False by lia.
    revert Hnone. rewrite ialloc_complete by done. cbv zeta.
    case_decide; cbn [fst snd image]; [lia|done].
  - rewrite ialloc_bitmap_after by done.
    destruct (ialloc_sets_returned_bit buf w Hrel Hbuf Hsome) as [Hrange _].
    apply bit_of_set_free; [|done].
    rewrite length_bitmap_block, BLOCK_SIZE_nat by done. lia.
Qed.

(** X7: on a reliable image the inode numbers of two consecutive calls go
    up: after a number [k] the next call returns a larger number or -1, and
    after -1 the next call returns -1 again. *)
Theorem ialloc_results_increase (buf buf' : list Z) (w : world) :
  reliable w ->
  length buf = Z.to_nat BLOCK_SIZE -> length buf' = Z.to_nat BLOCK_SIZE ->
  ((ialloc buf w).1 = -1 -> (ialloc buf' (ialloc buf w).2).1 = -1) /\
  ((ialloc buf w).1 <> -1 ->
   (ialloc buf' (ialloc buf w).2).1 = -1 \/
   (ialloc buf w).1 < (ialloc buf' (ialloc buf w).2).1).
Proof.
  intros Hrel Hbuf Hbuf'.
  pose proof (ialloc_keeps_reliable buf w Hrel Hbuf) as Hrel1.
  pose proof (length_bitmap_block w Hrel) as Hlen.
  pose proof (length_bitmap_block _ Hrel1) as Hlen1.
  pose proof (ialloc_result_reliable buf w Hrel Hbuf) as Hk1.
  pose proof (ialloc_result_reliable buf' _ Hrel1 Hbuf') as Hk2.
  pose proof (fun j => ialloc_bits_after buf w j Hrel Hbuf) as Hbits.
  destruct (find_free_spec _ Hlen1) as [[Hm _]|(Hrange2 & Hclear2 & _)].
  { split; intros _; [|left]; by rewrite Hk2. }
  rewrite <- Hk2 in Hrange2, Hclear2.
  rewrite Hbits in Hclear2 by lia.
  case_decide as Hsame; [done|].
  destruct (find_free_spec _ Hlen) as [[Hm Hfull]|(Hrange1 & _ & Hlow1)].
  - rewrite Hfull in Hclear2 by lia. done.
  - rewrite <- Hk1 in Hrange1, Hlow1.
    split; [lia|]. intros _. right.
    destruct (decide ((ialloc buf' (ialloc buf w).2).1 < (ialloc buf w).1))
      as [Hlt|]; [|lia].
    rewrite Hlow1 in Hclear2 by lia. done.
Qed.

Lemma ialloc_results_increase_witness :
  (ialloc zero_block (ialloc scratch w_exhausted).2).1 = -1 /\
  ((ialloc zero_block (ialloc scratch w_three_taken).2).1 = -1 \/
   (ialloc scratch w_three_taken).1 <
   (ialloc zero_block (ialloc scratch w_three_taken).2).1).
Proof.
  assert (Hz : length zero_block = Z.to_nat BLOCK_SIZE)
    by (vm_compute; reflexivity).
  split.
  - apply (ialloc_results_increase scratch zero_block w_exhausted
             reliable_w_exhausted length_scratch Hz).
    vm_compute. reflexivity.
  - apply (ialloc_results_increase scratch zero_block w_three_taken
             reliable_w_three_taken length_scratch Hz).
    vm_compute. discriminate.
Defined.

Lemma find_free_taken_below (block : list Z) (m : Z) :
  length block = Z.to_nat BLOCK_SIZE ->
  taken_below m block -> 0 <= m < 8 * BLOCK_SIZE ->
  find_free block = m.
Proof.
  intros Hlen Htaken Hm.
  pose proof (Htaken m Hm) as Hbitm.
  rewrite bool_decide_eq_false_2 in Hbitm by lia.
  destruct (find_free_spec block Hlen) as [[_ Hfull]|(Hrange & Hclear & Hlow)].
  - rewrite Hfull in Hbitm by done. done.
  - rewrite Htaken in Hclear by done.
    apply bool_decide_eq_false_1 in Hclear.
    destruct (decide (m < find_free block)) as [Hlt|]; [|lia].
    rewrite Hlow in Hbitm by lia. done.
Qed.

Lemma ialloc_taken_below_step (buf : list Z) (w : world) (m : Z) :
  reliable w -> length buf = Z.to_nat BLOCK_SIZE ->
  taken_below m (block_of (image w) FREE_INODE_BLOCK_NUM) ->
  0 <= m < 8 * BLOCK_SIZE ->
  (ialloc buf w).1 = m /\
  taken_below (m + 1) (block_of (image (ialloc buf w).2) FREE_INODE_BLOCK_NUM).
Proof.
  intros Hrel Hbuf Htaken Hm.
  assert (Hk : (ialloc buf w).1 = m).
  { rewrite ialloc_result_reliable by done.
    apply find_free_taken_below; [by apply length_bitmap_block|done|done]. }
  split; [done|]. intros j Hj.
  rewrite ialloc_bits_after, Hk, Htaken by (done || lia).
  case_decide.
  - by rewrite bool_decide_eq_true_2 by lia.
  - apply bool_decide_ext. lia.
Qed.

(** X8: on a reliable image whose bitmap has exactly the bits below [m] set
    (m = 0 on a freshly formatted image), the calls of a session return
    m, m + 1, m + 2, ... in order, as long as the numbers stay below
    8 * BLOCK_SIZE; when the session has handed out the last one, the next
    call returns -1. *)
Theorem ialloc_hands_out_in_order (w w' : world) (ks : list Z) (m : Z) :
  ialloc_run w ks w' ->
  reliable w ->
  taken_below m (block_of (image w) FREE_INODE_BLOCK_NUM) ->
  0 <= m -> m + Z.of_nat (length ks) <= 8 * BLOCK_SIZE ->
  (forall (i : nat) k, ks !! i = Some k -> k = m + Z.of_nat i) /\
  (m + Z.of_nat (length ks) = 8 * BLOCK_SIZE ->
   forall buf, length buf = Z.to_nat BLOCK_SIZE -> (ialloc buf w').1 = -1).
Proof.
  intros Hrun. revert m.
  induction Hrun as [w|w buf ks w' Hbuf Hrun IH];
    intros m Hrel Htaken Hm Hmax.
  - split; [intros i k Hik; done|].
    cbn [length] in *. intros Hend buf Hbuf.
    rewrite ialloc_result_reliable by done.
    apply find_free_minus_one; [by apply length_bitmap_block|].
    intros j Hj. rewrite Htaken by done.
    apply bool_decide_eq_true_2. lia.
  - cbn [length] in *.
    destruct (ialloc_taken_below_step buf w m Hrel Hbuf Htaken)
      as [Hk Htaken1]; [lia|].
    destruct (IH (m + 1)) as [Hnth Hend];
      [by apply ialloc_keeps_reliable|done|lia|lia|].
    split.
    + intros [|i] k Hik.
      * cbn in Hik. injection Hik as <-. lia.
      * cbn in Hik. rewrite (Hnth i k Hik). lia.
    + intros Hlast. apply Hend. lia.
Qed.

Lemma w_fresh_taken_below :
  taken_below 0 (block_of (image w_fresh) FREE_INODE_BLOCK_NUM).
Proof.
  intros j Hj. rewrite bool_decide_eq_false_2 by lia.
  assert (Hblk : block_of (image w_fresh) FREE_INODE_BLOCK_NUM = zero_block)
    by (vm_compute; reflexivity).
  rewrite Hblk. unfold bit_of, byte_at, zero_block.
  destruct (replicate _ 0 !! _) as [b|] eqn:Hb; cbn [default].
  - apply lookup_replicate_1 in Hb as [-> _]. apply Z.testbit_0_l.
  - apply Z.testbit_0_l.
Qed.

Lemma reliable_w_fresh : reliable w_fresh.
Proof. split; [reflexivity|vm_compute; discriminate]. Qed.

Lemma ialloc_hands_out_in_order_witness :
  (ialloc scratch (ialloc scratch w_fresh).2).1 = 0 + Z.of_nat 1.
Proof.
  assert (Hrun : ialloc_run w_fresh
            [(ialloc scratch w_fresh).1;
             (ialloc scratch (ialloc scratch w_fresh).2).1]
            (ialloc scratch (ialloc scratch w_fresh).2).2).
  { apply run_call; [exact length_scratch|].
    apply run_call; [exact length_scratch|].
    apply run_done. }
  assert (Hmax : 0 + Z.of_nat 2 <= 8 * BLOCK_SIZE)
    by (unfold BLOCK_SIZE; lia).
  destruct (ialloc_hands_out_in_order _ _ _ 0 Hrun reliable_w_fresh
              w_fresh_taken_below ltac:(lia) Hmax) as [Hnth _].
  apply (Hnth 1%nat). reflexivity.
Defined.

(** X9: after a session on a reliable image, a bit of the bitmap block is
    set exactly when it was set before the session or its index was returned
    by one of the calls. *)
Theorem ialloc_run_marks_exactly_the_returned
  (w w' : world) (ks : list Z) (j : Z) :
  ialloc_run w ks w' -> reliable w -> 0 <= j ->
  bit_of (block_of (image w') FREE_INODE_BLOCK_NUM) j =
  bit_of (block_of (image w) FREE_INODE_BLOCK_NUM) j || bool_decide (j ∈ ks).
Proof.
  induction 1 as [w|w buf ks w' Hbuf Hrun IH]; intros Hrel Hj.
  - rewrite bool_decide_eq_false_2 by apply not_elem_of_nil.
    by rewrite orb_false_r.
  - rewrite IH by (by apply ialloc_keeps_reliable || done).
    rewrite ialloc_bits_after by done.
    destruct (decide (j = (ialloc buf w).1)) as [Hsame|Hne].
    + rewrite (bool_decide_eq_true_2 (j ∈ (ialloc buf w).1 :: ks))
        by (apply elem_of_cons; by left).
      by rewrite orb_true_r.
    + f_equal. apply bool_decide_ext. rewrite elem_of_cons. tauto.
Qed.

Lemma ialloc_run_marks_exactly_the_returned_witness :
  bit_of (block_of (image (ialloc scratch w_three_taken).2)
            FREE_INODE_BLOCK_NUM) 3 =
  bit_of (block_of (image w_three_taken) FREE_INODE_BLOCK_NUM) 3
  || bool_decide (3 ∈ [(ialloc scratch w_three_taken).1]).
Proof.
  apply (ialloc_run_marks_exactly_the_returned
           w_three_taken (ialloc scratch w_three_taken).2 _ 3).
  - apply run_call; [exact length_scratch|apply run_done].
  - exact reliable_w_three_taken.
  - lia.
Defined.


(** ** ialloc when a transfer fails *)

Lemma bitmap_block_valid : valid_block FREE_INODE_BLOCK_NUM.
Proof. split; vm_compute; [discriminate|reflexivity]. Qed.

Lemma bread_failed (b : Z) (buf : list Z) (w : world) (rest : list outcome) :
  pending w = Failure :: rest ->
  (bread b buf w).1 = buf /\
  image (bread b buf w).2 = image w /\
  pending (bread b buf w).2 = rest.
Proof.
  intros Hpend. unfold bread, lseek, read, next_outcome.
  case_decide; cbn [image file_pos pending trace]; rewrite Hpend; done.
Qed.

Lemma bread_complete_first
  (b : Z) (buf : list Z) (w : world) (rest : list outcome) :
  valid_block b -> pending w = Complete :: rest ->
  holds_block (image w) b -> length buf = Z.to_nat BLOCK_SIZE ->
  (bread b buf w).1 = block_of (image w) b /\
  image (bread b buf w).2 = image w /\
  pending (bread b buf w).2 = rest.
Proof.
  intros Hb Hpend Hholds Hbuf.
  pose proof (holds_block_nat _ _ Hb Hholds) as Hlen.
  apply valid_block_offset in Hb as [Hoff Hpos].
  unfold bread, lseek, read, next_outcome. rewrite Hoff.
  rewrite decide_False by lia. cbn [image file_pos pending trace].
  rewrite Hpend. cbn [granted fst snd image pending].
  fold (block_of (image w) b).
  rewrite inserts_whole by (rewrite length_block_of; done). done.
Qed.

Lemma bwrite_failed (b : Z) (blk : list Z) (w : world) (rest : list outcome) :
  pending w = Failure :: rest ->
  image (bwrite b blk w) = image w /\ pending (bwrite b blk w) = rest.
Proof.
  intros Hpend. unfold bwrite, lseek, write, next_outcome.
  case_decide; cbn [image file_pos pending trace]; rewrite Hpend; done.
Qed.

(** X10: ialloc does not notice a failed read of the bitmap block. It scans
    what its local array held before the call; when that has a clear bit it
    returns the index and, the write completing, the bitmap block on disk
    becomes that array with the bit set. *)
Theorem ialloc_failed_read_scans_stack (buf : list Z) (w : world) :
  pending w = [Failure] -> length buf = Z.to_nat BLOCK_SIZE ->
  (ialloc buf w).1 = find_free buf /\
  (find_free buf <> -1 ->
   block_of (image (ialloc buf w).2) FREE_INODE_BLOCK_NUM =
   set_free buf (find_free buf) 1) /\
  (find_free buf = -1 -> image (ialloc buf w).2 = image w).
Proof.
  intros Hpend Hbuf.
  destruct (bread_failed FREE_INODE_BLOCK_NUM buf w [] Hpend)
    as (Hblk & Himg & Hpend1).
  unfold ialloc.
  destruct (bread FREE_INODE_BLOCK_NUM buf w) as [blk w1].
  cbn [fst snd] in *. subst blk.
  case_decide as Hfound; cbn [fst snd].
  - split; [done|]. split; [intros _|done].
    rewrite bwrite_no_fault;
      [|exact bitmap_block_valid|done|by rewrite length_set_free].
    cbn [image]. unfold block_of.
    rewrite <- (length_set_free buf (find_free buf) 1) in Hbuf.
    rewrite <- Hbuf. apply read_at_write_at.
  - split; [done|]. split; [done|]. intros _. done.
Qed.

Lemma ialloc_failed_read_scans_stack_witness :
  (ialloc zero_block w_failing).1 = find_free zero_block /\
  block_of (image (ialloc zero_block w_failing).2) FREE_INODE_BLOCK_NUM =
  set_free zero_block (find_free zero_block) 1.
Proof.
  assert (Hz : length zero_block = Z.to_nat BLOCK_SIZE)
    by (vm_compute; reflexivity).
  destruct (ialloc_failed_read_scans_stack zero_block w_failing eq_refl Hz)
    as (Hres & Hfound & _).
  split; [exact Hres|]. apply Hfound. vm_compute. discriminate.
Defined.

(** X11: when the read completes, the bitmap has a free bit and the write
    back fails, ialloc still returns the inode number, the image is left as
    it was, and the next call returns the same number again. *)
Theorem ialloc_failed_write_repeats (buf buf' : list Z) (w : world) :
  pending w = [Complete; Failure] ->
  holds_block (image w) FREE_INODE_BLOCK_NUM ->
  find_free (block_of (image w) FREE_INODE_BLOCK_NUM) <> -1 ->
  length buf = Z.to_nat BLOCK_SIZE -> length buf' = Z.to_nat BLOCK_SIZE ->
  (ialloc buf w).1 = find_free (block_of (image w) FREE_INODE_BLOCK_NUM) /\
  image (ialloc buf w).2 = image w /\
  (ialloc buf' (ialloc buf w).2).1 = (ialloc buf w).1.
Proof.
  intros Hpend Hholds Hfree Hbuf Hbuf'.
  destruct (bread_complete_first FREE_INODE_BLOCK_NUM buf w [Failure]
              bitmap_block_valid Hpend Hholds Hbuf) as (Hblk & Himg & Hpend1).
  assert (Hcall :
    (ialloc buf w).1 = find_free (block_of (image w) FREE_INODE_BLOCK_NUM) /\
    image (ialloc buf w).2 = image w /\ pending (ialloc buf w).2 = []).
  { unfold ialloc.
    destruct (bread FREE_INODE_BLOCK_NUM buf w) as [blk w1].
    cbn [fst snd] in *. subst blk.
    rewrite decide_True by done. cbn [fst snd].
    destruct (bwrite_failed FREE_INODE_BLOCK_NUM
      (set_free (block_of (image w) FREE_INODE_BLOCK_NUM)
         (find_free (block_of (image w) FREE_INODE_BLOCK_NUM)) 1)
      w1 [] Hpend1) as [Himg2 Hpend2].
    by rewrite Himg2, Himg. }
  destruct Hcall as (Hres & Himg' & Hpend').
  split; [done|]. split; [done|].
  rewrite ialloc_result_reliable; [by rewrite Himg', Hres| |done].
  split; [done|]. rewrite Himg'. exact Hholds.
Qed.

Lemma ialloc_failed_write_repeats_witness :
  (ialloc zero_block (ialloc scratch w_write_fails).2).1 =
  (ialloc scratch w_write_fails).1.
Proof.
  apply (ialloc_failed_write_repeats scratch zero_block w_write_fails).
  - reflexivity.
  - vm_compute. discriminate.
  - vm_compute. discriminate.
  - exact length_scratch.
  - vm_compute. reflexivity.
Defined.

(** X12: for a valid block number bread and bwrite address the block
    absolutely: the buffer bread returns and the image bwrite leaves do not
    depend on where earlier calls left the file position, whatever the
    outcome of the transfer. *)
Theorem bread_bwrite_ignore_file_position
  (b p : Z) (buf : list Z) (w : world) :
  valid_block b ->
  (bread b buf (mkWorld (image w) p (pending w) (trace w))).1 =
  (bread b buf w).1 /\
  image (bwrite b buf (mkWorld (image w) p (pending w) (trace w))) =
  image (bwrite b buf w).
Proof.
  intros Hb. apply valid_block_offset in Hb as [Hoff Hpos].
  unfold bread, bwrite, lseek, read, write, next_outcome. rewrite Hoff.
  rewrite !decide_False by lia. cbn [image file_pos pending trace].
  destruct (pending w) as [|o rest]; [set (o := Complete)|];
    destruct (granted o BLOCK_SIZE) as [k|]; done.
Qed.

Lemma bread_bwrite_ignore_file_position_witness :
  (bread 1 scratch
     (mkWorld (image w_short) 9000 (pending w_short) (trace w_short))).1 =
  (bread 1 scratch w_short).1.
Proof.
  apply (bread_bwrite_ignore_file_position 1 9000 scratch w_short).
  split; vm_compute; [discriminate|reflexivity].
Defined.
